(** * Pasifika database scripts: island-name matching and paginated export

    A shallow embedding of the parts of the repository that carry logic:

    - [create-clean-film-islands.py] and [create-film-islands.py]: the name
      normaliser and the feature filters built on it;
    - [airtable-to-baserow.py]: the offset-paginated fetch loop of
      [export_table_data] and the artifacts it writes;
    - [airtable-explorer.py] / [airtable-to-baserow.py]: the credential
      check done by the two constructors.

    Python exceptions are modelled by the [result] type, dictionaries whose
    iteration order is observable by association lists, the other
    dictionaries and sets by stdpp's [gmap] and [gset].  The export
    directory is a [gmap] from the files it keeps to their contents; which
    file a name leads to, and whether it can be opened, is left to a
    [FileSystem]. *)

From stdpp Require Import gmap strings list sorting.
From Stdlib Require Import Ascii QArith Lqa.

Close Scope Q_scope.
Open Scope string_scope.
Open Scope list_scope.

(** ** Python strings

    [str.lower] and [str.strip] are builtins of the interpreter, not code of
    the repository.  The scripts are modelled over any pair of such
    functions; [ascii_str] below is the instance used to run the model on
    concrete inputs (it agrees with Python on ASCII text and leaves bytes
    above 127, hence UTF-8 encoded lowercase letters, unchanged). *)

Class PyStr := {
  lower : string → string;
  strip : string → string
}.

Definition lower_ascii (c : ascii) : ascii :=
  let n := nat_of_ascii c in
  if ((65 <=? n) && (n <=? 90))%nat then ascii_of_nat (n + 32) else c.

Fixpoint str_map (f : ascii → ascii) (s : string) : string :=
  match s with
  | EmptyString => EmptyString
  | String c s' => String (f c) (str_map f s')
  end.

(** The ASCII characters for which [str.isspace] holds: TAB, LF, VT, FF, CR,
    the separators FS, GS, RS, US, and the blank. *)
Definition is_space (c : ascii) : bool :=
  let n := nat_of_ascii c in
  (((9 <=? n) && (n <=? 13)) || ((28 <=? n) && (n <=? 32)))%nat.

Fixpoint lstrip (s : string) : string :=
  match s with
  | EmptyString => EmptyString
  | String c s' => if is_space c then lstrip s' else s
  end.

Fixpoint rstrip (s : string) : string :=
  match s with
  | EmptyString => EmptyString
  | String c s' =>
      match rstrip s' with
      | EmptyString => if is_space c then EmptyString else String c EmptyString
      | r => String c r
      end
  end.

#[export] Instance ascii_str : PyStr := {|
  lower := str_map lower_ascii;
  strip := fun s => rstrip (lstrip s)
|}.

(** [a in b] on strings: [a] occurs in [b] as a contiguous substring. *)
Fixpoint str_prefix (a b : string) : bool :=
  match a, b with
  | EmptyString, _ => true
  | String x a', String y b' => bool_decide (x = y) && str_prefix a' b'
  | String _ _, EmptyString => false
  end.

Fixpoint str_in (a b : string) : bool :=
  str_prefix a b ||
  match b with
  | EmptyString => false
  | String _ b' => str_in a b'
  end.

(** ** Exceptions *)

Inductive Exn :=
  | FileNotFoundError
  | JSONDecodeError
  | KeyError (key : string)
  | ValueError (msg : string)
  | ConnectionError
  | OSError.

Inductive result (A : Type) :=
  | Ok (a : A)
  | Raise (e : Exn).
Arguments Ok {A} a.
Arguments Raise {A} e.

(** Sequencing: an exception of the first statement skips the rest.  With
    these two instances stdpp's [x ← c; k] notation is available. *)
#[export] Instance result_ret : MRet result := fun _ a => Ok a.
#[export] Instance result_bind : MBind result := fun _ _ k c =>
  match c with
  | Ok a => k a
  | Raise e => Raise e
  end.

(** [try: c except Exception: h] *)
Definition try_except {A} (c : result A) (h : Exn → result A) : result A :=
  match c with
  | Ok a => Ok a
  | Raise e => h e
  end.

(** A local file as [open] and [json.load] see it. *)
Inductive File (A : Type) :=
  | Missing
  | Unparsable
  | Parsed (data : A).
Arguments Missing {A}.
Arguments Unparsable {A}.
Arguments Parsed {A} data.

(** [with open(path) as f: return json.load(f)] *)
Definition open_json_load {A} (f : File A) : result A :=
  match f with
  | Missing => Raise FileNotFoundError
  | Unparsable => Raise JSONDecodeError
  | Parsed d => Ok d
  end.

(** A Python dict literal: later bindings of a key replace earlier ones. *)
Definition dict_literal {V} (l : list (string * V)) : gmap string V :=
  fold_left (fun m kv => <[kv.1 := kv.2]> m) l ∅.

(** A dict whose iteration order is observed: bindings in insertion order;
    assigning to a key that is present keeps its position. *)
Fixpoint dict_get {V} (k : string) (d : list (string * V)) : option V :=
  match d with
  | [] => None
  | (k', v) :: d' => if bool_decide (k' = k) then Some v else dict_get k d'
  end.

Fixpoint dict_set {V} (k : string) (v : V) (d : list (string * V)) : list (string * V) :=
  match d with
  | [] => [(k, v)]
  | (k', v') :: d' =>
      if bool_decide (k' = k) then (k, v) :: d' else (k', v') :: dict_set k v d'
  end.

(** Comparison of JSON numbers, read as the rationals they denote. *)
Definition Qltb (a b : Q) : bool :=
  match (a ?= b)%Q with
  | Lt => true
  | _ => false
  end.

(** ** GeoJSON features and film records

    any property may be absent: [name] and [area] are read with
    [.get(key, default)] by the filters, the others with [props[key]];
    [film_relevant], [normalized_name] and [original_film_name] are the
    provenance properties the clean filter adds, [mentioned_in_films] the one
    create-film-islands.py adds. *)

Record Properties := {
  name : option string;
  area : option Q;
  region : option string;
  film_relevant : option bool;
  normalized_name : option string;
  original_film_name : option string;
  mentioned_in_films : option bool
}.

Record Feature := {
  properties : option Properties;
  geometry : list (list (Q * Q))
}.

Record Film := {
  island : option string
}.

(** [feature.get('properties', {}).get('name', '')] *)
Definition get_name (feature : Feature) : string :=
  match properties feature with
  | Some p => default "" (name p)
  | None => ""
  end.

(** [feature.get('properties', {}).get('area', 0)] *)
Definition get_area (feature : Feature) : Q :=
  match properties feature with
  | Some p => default 0%Q (area p)
  | None => 0%Q
  end.

(** ** create-clean-film-islands.py *)

Module Clean.
Section Clean.
Context `{PyStr}.

Definition load_geojson (file : File (list Feature)) : result (option (list Feature)) :=
  try_except (d ← open_json_load file; Ok (Some d))
             (fun _ => Ok None).

Definition load_film_data (file : File (list Film)) : result (list Film) :=
  try_except (open_json_load file)
             (fun _ => Ok []).

Definition add_film (islands : gset string) (film : Film) : gset string :=
  match island film with
  | Some raw =>
      if bool_decide (raw = "") then islands
      else
        let isl := strip raw in
        if bool_decide (isl = "") then islands else islands ∪ {[ isl ]}
  | None => islands
  end.

Definition get_film_islands (file : File (list Film)) : result (gset string) :=
  films ← load_film_data file;
  Ok (fold_left add_film films ∅).

Definition name_mappings_literal : list (string * string) :=
  [ ("big island", "hawaii");
    ("o'ahu", "oahu");
    ("oahu", "oahu");
    ("rapa nui", "easter island");
    ("papua new guinea", "new guinea");
    ("aotearoa", "new zealand");
    ("te ika-a-māui", "north island");
    ("te ika-a-māui / north island", "north island");
    ("manono island", "manono");
    ("upolu island", "upolu");
    ("tanna island", "tanna");
    ("bougainville island", "bougainville");
    ("goulburn islands", "goulburn");
    ("satawal", "satawal");
    ("satawal ", "satawal");
    ("rapa nui ", "easter island");
    ("honolulu", "oahu");
    ("jarvis", "jarvis island");
    ("kosrae", "kosrae");
    ("rotuma", "rotuma");
    ("saipan", "saipan");
    ("tongatapu", "tongatapu");
    ("tuvalu", "tuvalu");
    ("kiribati", "kiribati");
    ("guam", "guam");
    ("maui", "maui");
    ("molokai", "molokai");
    ("hawaii", "hawaii");
    ("north island", "north island");
    ("australia", "australia") ].

Definition name_mappings : gmap string string :=
  dict_literal name_mappings_literal.

Definition normalize_island_name (name : string) : string :=
  let name := strip (lower name) in
  default name (name_mappings !! name).

Definition is_target_island (feature : Feature) (target_islands : gset string) : bool :=
  let name := strip (lower (get_name feature)) in
  let normalized_name := normalize_island_name name in
  bool_decide (set_Exists (fun target => normalize_island_name target = normalized_name)
                          target_islands).

(** The value stored in [island_groups] under a canonical name. *)
Record Group := {
  group_feature : Feature;
  group_area : Q;
  group_original_name : string
}.

(** One iteration of the loop of lines 120-132. *)
Definition group_step (film_islands : gset string)
    (island_groups : list (string * Group)) (feature : Feature) : list (string * Group) :=
  if is_target_island feature film_islands then
    let name := strip (lower (get_name feature)) in
    let normalized_name := normalize_island_name name in
    let area := get_area feature in
    let entry := {| group_feature := feature; group_area := area;
                    group_original_name := name |} in
    match dict_get normalized_name island_groups with
    | None => dict_set normalized_name entry island_groups
    | Some old =>
        if Qltb (group_area old) area
        then dict_set normalized_name entry island_groups
        else island_groups
    end
  else island_groups.

(** Lines 139-147: a copy of the feature with the provenance properties. *)
Definition annotate (item : string * Group) : result Feature :=
  let '(normalized_name, data) := item in
  let feature := group_feature data in
  match properties feature with
  | None => Raise (KeyError "properties")
  | Some p =>
      Ok {| properties := Some {|
              name := name p;
              area := area p;
              region := region p;
              film_relevant := Some true;
              normalized_name := Some normalized_name;
              original_film_name := Some (group_original_name data);
              mentioned_in_films := mentioned_in_films p |};
            geometry := geometry feature |}
  end.

(** [x['properties']['area']], the sort key of line 150. *)
Definition sort_key (x : Feature) : result Q :=
  match properties x with
  | None => Raise (KeyError "properties")
  | Some p =>
      match area p with
      | None => Raise (KeyError "area")
      | Some a => Ok a
      end
  end.

(** [list.sort(key=..., reverse=True)]: the keys are computed once, the
    sort is stable, larger keys come first. *)
Fixpoint insert_desc {A} (x : Q * A) (l : list (Q * A)) : list (Q * A) :=
  match l with
  | [] => [x]
  | y :: l' => if Qltb (fst x) (fst y) then y :: insert_desc x l' else x :: l
  end.

Definition sort_desc {A} (l : list (Q * A)) : list (Q * A) :=
  foldr insert_desc [] l.

Definition sort_by_area (final_features : list Feature) : result (list Feature) :=
  keys ← mapM sort_key final_features;
  Ok (map snd (sort_desc (zip keys final_features))).

(** Lines 118-150: from the loaded features and the film islands to the
    feature list that is saved. *)
Definition filter_features (features : list Feature) (film_islands : gset string)
    : result (list Feature) :=
  let island_groups := fold_left (group_step film_islands) features [] in
  final_features ← mapM annotate island_groups;
  sort_by_area final_features.

(** [d[key]] on a key that may be absent. *)
Definition item {A} (key : string) (value : option A) : result A :=
  match value with
  | Some v => Ok v
  | None => Raise (KeyError key)
  end.

(** Lines 168-173: what the loop after the save reads of one feature, in
    this order, before it prints its line. *)
Definition print_line (feature : Feature) : result unit :=
  props ← item "properties" (properties feature);
  _ ← item "name" (name props);
  _ ← item "area" (area props);
  _ ← item "region" (region props);
  _ ← item "original_film_name" (original_film_name props);
  Ok ().

(** Lines 166-173, the list printed after the file is saved. *)
Definition print_final (final_features : list Feature) : result unit :=
  _ ← mapM print_line final_features;
  Ok ().

Definition output_file : string := "clean-film-islands.geojson".

(** The script: what it leaves in [output_file] (if it gets to write it) and
    how it ends (the returned value, or the exception that escapes). *)
Definition create_clean_film_islands
    (islands_file : File (list Feature)) (film_file : File (list Film))
    : option (list Feature) * result (option string) :=
  match load_geojson islands_file with
  | Raise e => (None, Raise e)
  | Ok None => (None, Ok None)
  | Ok (Some features) =>
      match film_islands ← get_film_islands film_file;
            filter_features features film_islands with
      | Raise e => (None, Raise e)
      | Ok final_features =>
          (Some final_features, _ ← print_final final_features; Ok (Some output_file))
      end
  end.

End Clean.
End Clean.

(** ** create-film-islands.py *)

Module Film.
Section Film.
Context `{PyStr}.

Definition variations : list (string * list string) :=
  [ ("big island", ["hawaii"; "hawaii island"]);
    ("oahu", ["o'ahu"; "oahu"]);
    ("rapa nui", ["easter island"]);
    ("papua new guinea", ["new guinea"]);
    ("aotearoa", ["new zealand"; "north island"; "south island"]);
    ("te ika-a-māui", ["north island"; "te ika-a-maui"]);
    ("manono island", ["manono"]);
    ("upolu island", ["upolu"]);
    ("tanna island", ["tanna"]);
    ("bougainville island", ["bougainville"]);
    ("goulburn islands", ["goulburn"]);
    ("satawal", ["satawal island"]) ].

(** The loop of lines 61-65 over [variations.items()]. *)
Fixpoint first_standard (name : string) (items : list (string * list string)) : string :=
  match items with
  | [] => name
  | (standard, variants) :: items' =>
      if bool_decide (name ∈ variants) || bool_decide (name = standard)
      then standard
      else first_standard name items'
  end.

Definition normalize_island_name (name : string) : string :=
  let name := strip (lower name) in
  first_standard name variations.

Definition key_islands : list string :=
  [ "Fiji"; "Samoa"; "Tonga"; "Tahiti"; "New Caledonia"; "Vanuatu";
    "Solomon Islands"; "Palau"; "Marshall Islands"; "Kiribati";
    "Tuvalu"; "Nauru"; "Cook Islands"; "French Polynesia";
    "American Samoa"; "Guam"; "Northern Mariana Islands";
    "Federated States of Micronesia"; "Niue"; "Tokelau";
    "Wallis and Futuna"; "Pitcairn"; "Norfolk Island" ].

Definition mentioned (film_islands : gset string) (normalized_name : string) : bool :=
  bool_decide (set_Exists (fun film_island => normalize_island_name film_island = normalized_name)
                          film_islands).

Definition is_key_island (name : string) (key_islands : list string) : bool :=
  existsb (fun key_island => str_in (lower key_island) name || str_in name (lower key_island))
          key_islands.

Definition is_relevant_island (feature : Feature) (film_islands : gset string)
    (key_islands : list string) : bool :=
  let name := strip (lower (get_name feature)) in
  let normalized_name := normalize_island_name name in
  mentioned film_islands normalized_name || is_key_island name key_islands.

(** Lines 116-125.  [any] over an empty set never evaluates [props['name']]. *)
Definition mark (film_islands : gset string) (feature : Feature) : result Feature :=
  p ← from_option Ok (Raise (KeyError "properties")) (properties feature);
  m ← (if bool_decide (film_islands = ∅) then Ok false
       else n ← from_option Ok (Raise (KeyError "name")) (name p);
            Ok (mentioned film_islands (normalize_island_name n)));
  Ok {| properties := Some {|
          name := name p;
          area := area p;
          region := region p;
          film_relevant := Some true;
          normalized_name := normalized_name p;
          original_film_name := original_film_name p;
          mentioned_in_films := Some m |};
        geometry := geometry feature |}.

(** Lines 112-125: the features saved as [film-relevant-islands.geojson]. *)
Definition relevant_islands (features : list Feature) (film_islands : gset string)
    : result (list Feature) :=
  mapM (mark film_islands)
       (filter (fun feature => is_relevant_island feature film_islands key_islands = true)
               features).

End Film.
End Film.

(** ** The export directory

    The migration script builds every file name from a stem it takes from
    the data (the name of a table or of a base) and a fixed suffix, and
    opens [export_dir / name] for writing.  This may fail: a stem with a
    path separator points into a directory that need not exist, a name may
    be too long or not allowed.  And two stems may lead to one file: the
    file system may ignore case, and it reads [./] and [//] as parts of a
    path.  [can_write name] tells whether the file called [name] can be
    opened for writing; [resolve stem] is the stem under which the
    directory keeps the files written for [stem].  The directory itself is
    there, the constructor has made it (line 27): the two files of a fixed
    name, [export_summary.json] and [baserow_import_instructions.json], are
    written without asking. *)

Class FileSystem := {
  resolve : string → string;
  can_write : string → bool
}.

(** ** airtable-to-baserow.py: [export_table_data] *)

Module Airtable.

Record AirtableRecord := {
  id : string;
  fields : gmap string string
}.

(** [response.json()] of a page: the keys ['records'] and ['offset'], both
    read with [.get]. *)
Record Page := {
  page_records : option (list AirtableRecord);
  page_offset : option string
}.

Record Response := {
  status_code : Z;
  json : Page
}.

(** What one call of [requests.get] does: it returns a response, or raises
    (timeout, connection failure). *)
Inductive Reply :=
  | Http (response : Response)
  | Fails.

(** The [params] of a request: [pageSize] is always 100, [offset] is absent
    on the first request. *)
Record Request := {
  page_size : Z;
  offset_param : option string
}.

Inductive Artifact :=
  | JsonFile (data : list AirtableRecord)
  | CsvFile (rows : list (gmap string string)).

(** Python truth value of [data.get('offset')]. *)
Definition truthy (offset : option string) : bool :=
  match offset with
  | Some s => negb (bool_decide (s = ""))
  | None => false
  end.

(** [data.get('records', [])] and [data.get('offset')] *)
Definition get_records (data : Page) : list AirtableRecord :=
  default [] (page_records data).

Definition get_offset (data : Page) : option string :=
  page_offset data.

(** The state of the [while offset:] loop when it is left: the records (or
    the exception of [requests.get]), the page counter, the requests sent. *)
Record Loop := {
  loop_records : result (list AirtableRecord);
  loop_pages : nat;
  loop_sent : list Request
}.

(** Lines 122-144.  The server is the list of its replies to the successive
    requests; [None] means that this list ends before the loop does. *)
Fixpoint fetch_loop (server : list Reply) (offset : option string)
    (all_records : list AirtableRecord) (page_count : nat) (sent : list Request)
    : option Loop :=
  if truthy offset then
    let sent := sent ++ [{| page_size := 100%Z; offset_param := offset |}] in
    match server with
    | [] => None
    | Fails :: _ =>
        Some {| loop_records := Raise ConnectionError; loop_pages := page_count;
                loop_sent := sent |}
    | Http response :: server' =>
        if bool_decide (status_code response = 200%Z) then
          let data := json response in
          let records := get_records data in
          fetch_loop server' (get_offset data) (all_records ++ records) (S page_count) sent
        else
          Some {| loop_records := Ok all_records; loop_pages := page_count;
                  loop_sent := sent |}
    end
  else Some {| loop_records := Ok all_records; loop_pages := page_count; loop_sent := sent |}.

(** Lines 110-113, the total given to the progress bar. *)
Definition estimated_total (first_data : Page) : nat :=
  let total_records := length (get_records first_data) in
  if truthy (get_offset first_data) then total_records * 10 else total_records.

(** Lines 162-163: [row = {'id': record['id']}; row.update(fields)]. *)
Definition csv_row (record : AirtableRecord) : gmap string string :=
  fields record ∪ {[ "id" := id record ]}.

Definition json_file (table_name : string) : string := table_name +:+ "_data.json".
Definition csv_file (table_name : string) : string := table_name +:+ "_data.csv".

(** A finished call: [all_records] as the fetch of lines 89-144 leaves it
    (an exception of [requests.get] leaves no list), the list returned, the
    requests issued, in order, and the export directory afterwards. *)
Record Run := {
  accumulated : result (list AirtableRecord);
  returned : list AirtableRecord;
  requests : list Request;
  export_dir : gmap string Artifact
}.

Definition first_request : Request := {| page_size := 100%Z; offset_param := None |}.

Section WithFiles.
Context `{FileSystem}.

(** Lines 153-169: the directory afterwards, and whether an [open] raised.
    The JSON file is opened first; the CSV file is opened only when there
    are records, and after the JSON file has been written. *)
Definition save (table_name : string) (all_records : list AirtableRecord)
    (files : gmap string Artifact) : gmap string Artifact * result unit :=
  if can_write (json_file table_name) then
    let files := <[json_file (resolve table_name) := JsonFile all_records]> files in
    match all_records with
    | [] => (files, Ok ())
    | _ :: _ =>
        if can_write (csv_file table_name) then
          (<[csv_file (resolve table_name) := CsvFile (map csv_row all_records)]> files,
           Ok ())
        else (files, Raise OSError)
    end
  else (files, Raise OSError).

(** [export_table_data]; the [except Exception] of line 173 returns [[]],
    whether [requests.get] or an [open] raised: in the first case nothing has
    been written, in the second what was written before stays.  The clock is
    not modelled. *)
Definition export_table_data (table_name : string) (files : gmap string Artifact)
    (server : list Reply) : option Run :=
  match server with
  | [] => None
  | Fails :: _ =>
      Some {| accumulated := Raise ConnectionError; returned := [];
              requests := [first_request]; export_dir := files |}
  | Http first_response :: server' =>
      if bool_decide (status_code first_response ≠ 200%Z) then
        Some {| accumulated := Ok []; returned := [];
                requests := [first_request]; export_dir := files |}
      else
        let first_data := json first_response in
        loop ← fetch_loop server' (get_offset first_data) ([] ++ get_records first_data) 1
                          [first_request];
        match loop_records loop with
        | Raise e =>
            Some {| accumulated := Raise e; returned := [];
                    requests := loop_sent loop; export_dir := files |}
        | Ok all_records =>
            let '(files, saved) := save table_name all_records files in
            Some {| accumulated := Ok all_records;
                    returned := match saved with
                                | Ok _ => all_records
                                | Raise _ => []
                                end;
                    requests := loop_sent loop;
                    export_dir := files |}
        end
  end.

End WithFiles.

End Airtable.

(** ** The constructors and their credential check *)

Module Credentials.

(** What a constructor does to the outside world. *)
Inductive Event :=
  | LoadDotenv
  | Mkdir (path : string)
  | PrintLine
  | HttpGet (url : string).

Definition is_network (e : Event) : bool :=
  match e with
  | HttpGet _ => true
  | _ => false
  end.

Definition env_key : string := "AIRTABLE_API_KEY".

(** Python truth value of [os.getenv(...)]. *)
Definition present (api_key : option string) : bool :=
  match api_key with
  | Some s => negb (bool_decide (s = ""))
  | None => false
  end.

(** [load_dotenv()]: variables of the [.env] file that the environment does
    not define are added to it. *)
Definition load_dotenv (environ dotenv : gmap string string) : gmap string string :=
  environ ∪ dotenv.

(** [AirtableExplorer.__init__]: the object's [api_key] or the exception,
    and the events up to that point. *)
Definition explorer_init (environ dotenv : gmap string string)
    : result string * list Event :=
  let environ := load_dotenv environ dotenv in
  let api_key := environ !! env_key in
  if negb (present api_key) then
    (Raise (ValueError "AIRTABLE_API_KEY not found in .env file"), [LoadDotenv])
  else
    let api_key := default "" api_key in
    if negb (str_prefix "pat" api_key) then
      (Raise (ValueError "Invalid API key format. Should start with 'pat'"), [LoadDotenv])
    else
      (Ok api_key, [LoadDotenv; Mkdir "airtable_exploration"; PrintLine]).

(** [AirtableToBaseRow.__init__] *)
Definition baserow_init (environ : gmap string string) : result string * list Event :=
  let api_key := environ !! env_key in
  if negb (present api_key) then
    (Raise (ValueError "AIRTABLE_API_KEY not found in environment"), [])
  else
    (Ok (default "" api_key), [Mkdir "airtable_export"]).

End Credentials.

(** ** airtable-to-baserow.py: [export_all_data] and what it calls

    The server is described by what it answers to each call, call after
    call; for a table, by the list of its replies to the successive page
    requests.  The export directory holds three kinds of files, told apart by
    the end of their names ([<base>_schema.json], [<table>_data.json] /
    [<table>_data.csv] and [export_summary.json]); they are kept in three
    components.  Within a kind, two names may lead to the same file. *)

Module Migration.

Record Base := {
  base_id : string;
  base_name : string
}.

Record TableField := {
  tf_name : string
}.

Record Table := {
  tbl_id : string;
  tbl_name : string;
  tbl_fields : option (list TableField)
}.

(** The JSON object of a schema response: its ['tables'] key, read with
    [.get], and whatever other keys it has. *)
Record Schema := {
  schema_tables : option (list Table);
  schema_other : gmap string string
}.

(** Python truth value of the schema object: a dict with at least one key. *)
Definition schema_truthy (schema : Schema) : bool :=
  negb (bool_decide (schema_tables schema = None ∧ schema_other schema = ∅)).

(** A reply of one of the two [meta] endpoints. *)
Inductive MetaReply (A : Type) :=
  | MetaHttp (status : Z) (body : A)
  | MetaFails.
Arguments MetaHttp {A} status body.
Arguments MetaFails {A}.

(** The server need not answer a request twice in the same way:
    [meta_tables n base_id] is its reply to the [n]-th call of
    [export_base_schema] (counted from 0) when that call asks for [base_id],
    and [table_pages n base_id table_id] are its replies to the page requests
    of the [n]-th call of [export_table_data]. *)
Record Server := {
  meta_bases : MetaReply (option (list Base));
  meta_tables : nat → string → MetaReply Schema;
  table_pages : nat → string → string → list Airtable.Reply
}.

(** [get_airtable_bases], lines 34-57. *)
Definition get_airtable_bases (server : Server) : list Base :=
  match meta_bases server with
  | MetaHttp status body =>
      if bool_decide (status = 200%Z) then default [] body else []
  | MetaFails => []
  end.

Definition schema_file (base_name : string) : string := base_name +:+ "_schema.json".

Record TableSummary := {
  ts_table_id : string;
  ts_table_name : string;
  record_count : nat;
  ts_fields : list string
}.

Record BaseSummary := {
  bs_base_id : string;
  bs_base_name : string;
  bs_tables : list TableSummary
}.

(** [export_summary], without its two clock readings. *)
Record ExportSummary := {
  es_bases : list BaseSummary;
  total_records : nat;
  total_tables : nat
}.

Record Disk := {
  table_files : gmap string Airtable.Artifact;
  schema_files : gmap string Schema;
  summary_file : option ExportSummary
}.

(** The state of the loops of lines 208-244, and how many calls of
    [export_base_schema] and of [export_table_data] have been made. *)
Record Progress := {
  disk : Disk;
  export_summary : ExportSummary;
  schema_calls : nat;
  table_calls : nat
}.

Section WithFiles.
Context `{FileSystem}.

(** [export_base_schema], lines 59-82, as the call number [call]: the
    schema, or [None], and the schema files afterwards.  The file is written
    inside the [try] (lines 71-73): when [open] raises, the call returns
    [None]. *)
Definition export_base_schema (server : Server) (call : nat)
    (schema_files : gmap string Schema) (base_id base_name : string)
    : option Schema * gmap string Schema :=
  match meta_tables server call base_id with
  | MetaHttp status schema =>
      if bool_decide (status = 200%Z) then
        if can_write (schema_file base_name)
        then (Some schema, <[schema_file (resolve base_name) := schema]> schema_files)
        else (None, schema_files)
      else (None, schema_files)
  | MetaFails => (None, schema_files)
  end.

(** Lines 226-243, the body of the loop over the tables of a base; [None]
    when the replies listed for the table end before its export does. *)
Definition export_one (server : Server) (base_id : string)
    (state : Progress * list TableSummary) (table : Table)
    : option (Progress * list TableSummary) :=
  let '(progress, tables) := state in
  let table_id := tbl_id table in
  let table_name := tbl_name table in
  run ← Airtable.export_table_data table_name (table_files (disk progress))
          (table_pages server (table_calls progress) base_id table_id);
  let records := Airtable.returned run in
  let table_summary :=
    {| ts_table_id := table_id;
       ts_table_name := table_name;
       record_count := length records;
       ts_fields := tf_name <$> default [] (tbl_fields table) |} in
  Some ({| disk := {| table_files := Airtable.export_dir run;
                      schema_files := schema_files (disk progress);
                      summary_file := summary_file (disk progress) |};
           export_summary :=
             {| es_bases := es_bases (export_summary progress);
                total_records := total_records (export_summary progress) + length records;
                total_tables := total_tables (export_summary progress) + 1 |};
           schema_calls := schema_calls progress;
           table_calls := S (table_calls progress) |},
        tables ++ [table_summary]).

Fixpoint export_tables (server : Server) (base_id : string) (tables : list Table)
    (state : Progress * list TableSummary) : option (Progress * list TableSummary) :=
  match tables with
  | [] => Some state
  | table :: tables' =>
      state' ← export_one server base_id state table;
      export_tables server base_id tables' state'
  end.

(** Lines 208-246, the body of the loop over the bases. *)
Definition export_base (server : Server) (progress : Progress) (base : Base)
    : option Progress :=
  let '(schema, files) :=
    export_base_schema server (schema_calls progress) (schema_files (disk progress))
                       (base_id base) (base_name base) in
  let progress :=
    {| disk := {| table_files := table_files (disk progress);
                  schema_files := files;
                  summary_file := summary_file (disk progress) |};
       export_summary := export_summary progress;
       schema_calls := S (schema_calls progress);
       table_calls := table_calls progress |} in
  match schema with
  | None => Some progress
  | Some schema =>
      if schema_truthy schema then
        '(progress, tables) ←
          export_tables server (base_id base) (default [] (schema_tables schema))
                        (progress, []);
        Some {| disk := disk progress;
                export_summary :=
                  {| es_bases := es_bases (export_summary progress)
                                 ++ [{| bs_base_id := base_id base;
                                        bs_base_name := base_name base;
                                        bs_tables := tables |}];
                     total_records := total_records (export_summary progress);
                     total_tables := total_tables (export_summary progress) |};
                schema_calls := schema_calls progress;
                table_calls := table_calls progress |}
      else Some progress
  end.

Fixpoint export_bases (server : Server) (bases : list Base) (progress : Progress)
    : option Progress :=
  match bases with
  | [] => Some progress
  | base :: bases' =>
      progress' ← export_base server progress base;
      export_bases server bases' progress'
  end.

(** Lines 187-193: the first pass over the bases, which counts the tables
    and, by calling [export_base_schema], writes the schema files.  The state
    is the number of calls made, the count and the schema files. *)
Definition count_tables (server : Server) (bases : list Base)
    (files : gmap string Schema) : nat * nat * gmap string Schema :=
  fold_left
    (fun '(calls, total_tables, files) base =>
       let '(schema, files) :=
         export_base_schema server calls files (base_id base) (base_name base) in
       match schema with
       | Some schema =>
           if schema_truthy schema
           then (S calls, total_tables + length (default [] (schema_tables schema)), files)
           else (S calls, total_tables, files)
       | None => (S calls, total_tables, files)
       end)
    bases (0, 0, files).

(** [export_all_data], lines 177-264: the value returned and the directory
    afterwards. *)
Definition export_all_data (server : Server) (dir : Disk) : option (bool * Disk) :=
  let bases := get_airtable_bases server in
  match bases with
  | [] => Some (false, dir)
  | _ :: _ =>
      let '(calls, total_tables, files) := count_tables server bases (schema_files dir) in
      let start :=
        {| disk := {| table_files := table_files dir;
                      schema_files := files;
                      summary_file := summary_file dir |};
           export_summary := {| es_bases := []; total_records := 0; total_tables := 0 |};
           schema_calls := calls;
           table_calls := 0 |} in
      progress ← export_bases server bases start;
      Some (true, {| table_files := table_files (disk progress);
                     schema_files := schema_files (disk progress);
                     summary_file := Some (export_summary progress) |})
  end.

End WithFiles.

End Migration.

(** ** airtable-explorer.py: the schema summaries *)

Module Explorer.

(** A field and a table of a base schema, as the explorer reads them: every
    key with [.get]. *)
Record SchemaField := {
  field_type : option string
}.

Record SchemaTable := {
  table_id : option string;
  table_name : option string;
  table_fields : option (list SchemaField)
}.

(** Lines 138-141 and 250-252:
    [field_types[t] = field_types.get(t, 0) + 1] for each field. *)
Definition count_type (field_types : list (string * nat)) (field : SchemaField)
    : list (string * nat) :=
  let t := default "unknown" (field_type field) in
  dict_set t (default 0 (dict_get t field_types) + 1) field_types.

Definition count_field_types (fields : list SchemaField) : list (string * nat) :=
  fold_left count_type fields [].

(** Lines 242-252: the summary of one table. *)
Record TableSummary := {
  summary_table_id : option string;
  summary_table_name : option string;
  field_count : nat;
  field_types : list (string * nat)
}.

Definition table_summary (table : SchemaTable) : TableSummary :=
  let fields := default [] (table_fields table) in
  {| summary_table_id := table_id table;
     summary_table_name := table_name table;
     field_count := length fields;
     field_types := count_field_types fields |}.

End Explorer.

(** ** airtable-to-baserow.py: [import_to_baserow] *)

Module Instructions.

Record TableInstructions := {
  ti_table_name : string;
  ti_csv_file : string;
  ti_record_count : nat;
  ti_fields : list string
}.

Record BaseInstructions := {
  bi_base_name : string;
  bi_tables : list TableInstructions
}.

(** Lines 342-347. *)
Definition table_instructions (table : Migration.TableSummary) : TableInstructions :=
  {| ti_table_name := Migration.ts_table_name table;
     ti_csv_file := Migration.ts_table_name table +:+ "_data.csv";
     ti_record_count := Migration.record_count table;
     ti_fields := Migration.ts_fields table |}.

(** Lines 335-350. *)
Definition base_instructions (base : Migration.BaseSummary) : BaseInstructions :=
  {| bi_base_name := Migration.bs_base_name base;
     bi_tables := table_instructions <$> Migration.bs_tables base |}.

(** [import_to_baserow], lines 311-363: the value returned and the bases of
    the instructions file it writes, if it writes one. *)
Definition import_to_baserow (dir : Migration.Disk)
    : bool * option (list BaseInstructions) :=
  match Migration.summary_file dir with
  | None => (false, None)
  | Some summary => (true, Some (base_instructions <$> Migration.es_bases summary))
  end.

End Instructions.

(** * Vocabulary of the statements *)

(** The normaliser as the specification words it: lowercase, trim, then one
    substitution through a fixed table of (alias, canonical name) pairs, the
    string itself when the table has no entry for it. *)
Definition substitute (table : list (string * string)) (s : string) : string :=
  match dict_get s table with
  | Some canonical => canonical
  | None => s
  end.

Definition spec_normalize `{PyStr} (table : list (string * string)) (raw : string) : string :=
  substitute table (strip (lower raw)).

(** The table that [create-film-islands.py] spells as [variations]: every
    variant, and the standard name itself, is sent to the standard name. *)
Definition film_alias_table : list (string * string) :=
  flat_map (fun item => map (fun variant => (variant, item.1)) item.2 ++ [(item.1, item.1)])
           Film.variations.

(** The successful pages among the responses. *)
Definition is_ok (response : Airtable.Response) : bool :=
  bool_decide (Airtable.status_code response = 200%Z).

(** A server that answers every request with an HTTP response. *)
Definition answers (responses : list Airtable.Response) : list Airtable.Reply := Airtable.Http <$> responses.

(** A page that is followed by another request: status 200 and a
    continuation token that Python takes as true. *)
Definition has_next (response : Airtable.Response) : Prop :=
  Airtable.status_code response = 200%Z ∧
  Airtable.truthy (Airtable.get_offset (Airtable.json response)) = true.

Definition page (records : list Airtable.AirtableRecord) (offset : option string)
    : Airtable.Response :=
  {| Airtable.status_code := 200;
     Airtable.json := {| Airtable.page_records := Some records;
                         Airtable.page_offset := offset |} |}.

(** The records a page response carries. *)
Definition records_in (response : Airtable.Response) : list Airtable.AirtableRecord :=
  match Airtable.page_records (Airtable.json response) with
  | Some records => records
  | None => []
  end.

(** The continuation token a page response carries; an empty token is none. *)
Definition token_of (response : Airtable.Response) : option string :=
  match Airtable.page_offset (Airtable.json response) with
  | Some token => if String.eqb token "" then None else Some token
  | None => None
  end.

(** A successful page that announces a further one. *)
Definition continues (response : Airtable.Response) : Prop :=
  Airtable.status_code response = 200%Z ∧ is_Some (token_of response).

(** The pages of a fetch, in fetch order, when the server answers the
    successive requests with [responses]: the fetch ends with the first
    response that is not a success, and after the first page without a
    token. *)
Fixpoint pages_fetched (responses : list Airtable.Response) : list Airtable.Response :=
  match responses with
  | [] => []
  | response :: later =>
      if is_ok response then
        response :: match token_of response with
                    | Some _ => pages_fetched later
                    | None => []
                    end
      else []
  end.

(** The two artifacts of the table can be written: the JSON file, and the
    CSV file if there are records. *)
Definition can_save `{FileSystem} (table_name : string)
    (records : list Airtable.AirtableRecord) : bool :=
  can_write (Airtable.json_file table_name)
  && (bool_decide (records = []) || can_write (Airtable.csv_file table_name)).

(** [row] is the CSV row of [record]: a column for each field, and a column
    [id] with its identifier unless one of its fields is called [id]. *)
Definition is_row_of (record : Airtable.AirtableRecord) (row : gmap string string) : Prop :=
  ∀ column,
    row !! column =
      match Airtable.fields record !! column with
      | Some value => Some value
      | None => if bool_decide (column = "id") then Some (Airtable.id record) else None
      end.

(** An export directory without subdirectories, on a file system that tells
    upper and lower case apart: a [./] at the start of a name does not change
    the file it leads to, any other path separator leads into a directory
    that is not there. *)
Fixpoint plain_name (name : string) : string :=
  match name with
  | String "." (String "/" name') => plain_name name'
  | _ => name
  end.

Fixpoint has_separator (name : string) : bool :=
  match name with
  | EmptyString => false
  | String c name' => Ascii.eqb c "/" || has_separator name'
  end.

#[export] Instance plain_directory : FileSystem := {|
  resolve := plain_name;
  can_write := fun name => negb (has_separator (plain_name name))
|}.

(** The token a constructor finds fails the literal prefix check (a missing
    token included). *)
Definition fails_prefix_check (api_key : option string) : Prop :=
  match api_key with
  | Some s => str_prefix "pat" s = false
  | None => True
  end.

Definition no_network (events : list Credentials.Event) : Prop :=
  Forall (fun e => Credentials.is_network e = false) events.

(** The claim as the specification states it, for [AirtableToBaseRow]: a
    token that fails the prefix check makes the constructor raise. *)
Definition baserow_checks_prefix : Prop :=
  ∀ environ : gmap string string,
    fails_prefix_check (environ !! Credentials.env_key) →
    ∃ e, (Credentials.baserow_init environ).1 = Raise e.

(** An input file that cannot be read: absent, or not JSON. *)
Definition unreadable {A} (file : File A) : Prop :=
  match file with
  | Parsed _ => False
  | _ => True
  end.

(** The canonical key under which the clean filter files a feature. *)
Definition canonical `{PyStr} (feature : Feature) : string :=
  Clean.normalize_island_name (strip (lower (get_name feature))).

(** The feature's normalised name is the normalised form of a reference. *)
Definition matches_reference `{PyStr} (refs : gset string) (feature : Feature) : Prop :=
  ∃ target, target ∈ refs ∧ Clean.normalize_island_name target = canonical feature.

(** The same two notions with the normaliser of create-film-islands.py. *)
Definition film_canonical `{PyStr} (feature : Feature) : string :=
  Film.normalize_island_name (strip (lower (get_name feature))).

Definition film_matches_reference `{PyStr} (refs : gset string) (feature : Feature) : Prop :=
  ∃ target, target ∈ refs ∧ Film.normalize_island_name target = film_canonical feature.

(** [x['properties']['area']] when both keys are there. *)
Definition declared_area (feature : Feature) : option Q :=
  p ← properties feature; area p.

(** [x['properties']['region']] when both keys are there. *)
Definition declared_region (feature : Feature) : option string :=
  p ← properties feature; region p.

(** [a] may stand before [b] in a list sorted by area, largest first. *)
Definition area_ge (a b : Feature) : Prop := (get_area b <= get_area a)%Q.

Definition key_ge {A} (x y : Q * A) : Prop := Qltb x.1 y.1 = false.

(** What the clean filter stores for a feature it keeps. *)
Definition entry_of `{PyStr} (feature : Feature) : Clean.Group :=
  {| Clean.group_feature := feature;
     Clean.group_area := get_area feature;
     Clean.group_original_name := strip (lower (get_name feature)) |}.

(** [f], at position [i], is the candidate the filter keeps for its key:
    it matches a reference, no candidate for the same key has a larger area,
    and none with an equal area stands before it. *)
Definition best_candidate `{PyStr} (refs : gset string) (features : list Feature)
    (i : nat) (f : Feature) : Prop :=
  features !! i = Some f ∧
  matches_reference refs f ∧
  ∀ j g, features !! j = Some g → matches_reference refs g → canonical g = canonical f →
         (get_area g <= get_area f)%Q ∧ ((get_area g == get_area f)%Q → (i ≤ j)%nat).

(** The loop invariant of lines 120-132, after the features [seen]. *)
Definition groups_inv `{PyStr} (refs : gset string) (seen : list Feature)
    (groups : list (string * Clean.Group)) : Prop :=
  NoDup groups.*1 ∧
  (∀ k g, dict_get k groups = Some g →
          g = entry_of (Clean.group_feature g) ∧
          k = canonical (Clean.group_feature g) ∧
          ∃ i, best_candidate refs seen i (Clean.group_feature g)) ∧
  (∀ f, f ∈ seen → matches_reference refs f → is_Some (dict_get (canonical f) groups)).

(** The claim on the filter of create-film-islands.py, as the specification
    states it: a feature is in the output only because it matches a reference. *)
Definition film_output_matches_only `{PyStr} : Prop :=
  ∀ features refs out o,
    Film.relevant_islands features refs = Ok out →
    o ∈ out →
    film_matches_reference refs o.

(** Concrete inputs on which the statements are run. *)
Definition island_feature (n : string) (a : Q) (r : string) : Feature :=
  {| properties := Some {| name := Some n; area := Some a; region := Some r;
                           film_relevant := None; normalized_name := None;
                           original_film_name := None; mentioned_in_films := None |};
     geometry := [[(0, 0); (1, 0); (1, 1); (0, 0)]%Q] |}.

Definition kept_feature (n : string) (a : Q) (r key original : string) : Feature :=
  {| properties := Some {| name := Some n; area := Some a; region := Some r;
                           film_relevant := Some true; normalized_name := Some key;
                           original_film_name := Some original;
                           mentioned_in_films := None |};
     geometry := [[(0, 0); (1, 0); (1, 1); (0, 0)]%Q] |}.

Definition example_features : list Feature :=
  [ island_feature "Easter Island" 163.6 "Polynesia";
    island_feature "Rapa Nui" 163.6 "Polynesia";
    island_feature "Oahu" 1545.4 "Polynesia";
    island_feature "Fiji" 18274 "Melanesia";
    island_feature " O'ahu" 1600 "Polynesia" ].

Definition example_refs : gset string := {[ "Rapa Nui"; "Honolulu" ]}.

Definition example_output : list Feature :=
  [ kept_feature " O'ahu" 1600 "Polynesia" "oahu" "o'ahu";
    kept_feature "Easter Island" 163.6 "Polynesia" "easter island" "easter island" ].

Definition fiji : Feature := island_feature "Fiji" 18274 "Melanesia".

(** [fiji] as create-film-islands.py writes it when no film mentions it. *)
Definition fiji_marked : Feature :=
  {| properties := Some {| name := Some "Fiji"; area := Some 18274%Q;
                           region := Some "Melanesia";
                           film_relevant := Some true;
                           normalized_name := None;
                           original_film_name := None;
                           mentioned_in_films := Some false |};
     geometry := [[(0, 0); (1, 0); (1, 1); (0, 0)]%Q] |}.

Definition oahu_kept : Feature := kept_feature " O'ahu" 1600 "Polynesia" "oahu" "o'ahu".

(** A response after which the fetch loop stops: an error status, or a page
    without a continuation token. *)
Definition ends_fetch (response : Airtable.Response) : Prop :=
  Airtable.status_code response ≠ 200%Z ∨
  Airtable.truthy (Airtable.get_offset (Airtable.json response)) = false.

(** A film names the island [t]: it has a non-empty ['island'] whose trimmed
    form is [t], and [t] is not empty. *)
Definition names_island `{PyStr} (films : list Film) (t : string) : Prop :=
  ∃ film raw, film ∈ films ∧ island film = Some raw ∧ raw ≠ "" ∧
              strip raw = t ∧ t ≠ "".

(** [o] is the copy the clean filter writes for the input feature [f]. *)
Definition kept_copy `{PyStr} (f o : Feature) : Prop :=
  geometry o = geometry f ∧
  ∃ p q, properties f = Some p ∧ properties o = Some q ∧
         name q = name p ∧ area q = area p ∧ region q = region p ∧
         mentioned_in_films q = mentioned_in_films p ∧
         film_relevant q = Some true ∧
         normalized_name q = Some (canonical f) ∧
         original_film_name q = Some (strip (lower (get_name f))).

(** The feature has no usable name: the key is missing, or its value is
    empty once lowercased and trimmed. *)
Definition blank_name `{PyStr} (feature : Feature) : Prop :=
  strip (lower (get_name feature)) = "".

(** What Python's [str.lower] and [str.strip] do to empty strings: the empty
    string stays empty, and a string that is not empty once trimmed is not
    emptied by lowercasing and trimming it again. *)
Definition keeps_text `{PyStr} : Prop :=
  strip (lower "") = "" ∧
  ∀ s, strip s ≠ "" → strip (lower (strip s)) ≠ "".

(** Lowercasing and trimming twice is lowercasing and trimming once. *)
Definition trims_once `{PyStr} : Prop :=
  ∀ s, strip (lower (strip (lower s))) = strip (lower s).

(** The canonical names the two tables map to. *)
Definition canonical_names : list string :=
  Clean.name_mappings_literal.*2 ++ film_alias_table.*2.

(** [o] is the copy create-film-islands.py writes for the input feature [f]. *)
Definition marked_copy `{PyStr} (refs : gset string) (f o : Feature) : Prop :=
  geometry o = geometry f ∧
  ∃ p q, properties f = Some p ∧ properties o = Some q ∧
         name q = name p ∧ area q = area p ∧ region q = region p ∧
         normalized_name q = normalized_name p ∧
         original_film_name q = original_film_name p ∧
         film_relevant q = Some true ∧
         mentioned_in_films q =
           Some (Film.mentioned refs (Film.normalize_island_name (get_name f))).

(** A feature without a [properties] object, and a film record. *)
Definition bare_feature : Feature :=
  {| properties := None; geometry := [[(0, 0); (1, 0); (1, 1); (0, 0)]%Q] |}.

(** A feature collection may name an island without placing it in a region. *)
Definition unplaced_feature : Feature :=
  {| properties := Some {| name := Some "Rapa Nui"; area := Some 163.6%Q; region := None;
                           film_relevant := None; normalized_name := None;
                           original_film_name := None; mentioned_in_films := None |};
     geometry := [[(0, 0); (1, 0); (1, 1); (0, 0)]%Q] |}.

Definition example_films : list Film :=
  [ {| island := Some "Rapa Nui " |}; {| island := None |};
    {| island := Some "  " |}; {| island := Some "Honolulu" |} ].

(** ** Vocabulary of the further statements *)

(** The type the explorer counts a field under. *)
Definition type_of (field : Explorer.SchemaField) : string :=
  default "unknown" (Explorer.field_type field).

(** The number of fields counted under [t]. *)
Definition fields_of_type (t : string) (fields : list Explorer.SchemaField) : nat :=
  length (filter (fun field => type_of field = t) fields).

(** Each request after the first repeats the token of the response before
    it, which was a successful one. *)
Definition follows_token (responses : list Airtable.Response)
    (i : nat) (request : Airtable.Request) : Prop :=
  Airtable.page_size request = 100%Z ∧
  Airtable.truthy (Airtable.offset_param request) = true ∧
  ∃ response, responses !! i = Some response ∧
              Airtable.status_code response = 200%Z ∧
              Airtable.offset_param request = Airtable.get_offset (Airtable.json response).

Definition threaded (offset : option string) (responses : list Airtable.Response)
    (extra : list Airtable.Request) : Prop :=
  ∀ i request, extra !! i = Some request →
    Airtable.page_size request = 100%Z ∧
    Airtable.truthy (Airtable.offset_param request) = true ∧
    match i with
    | O => Airtable.offset_param request = offset
    | S j => ∃ response, responses !! j = Some response ∧
                         Airtable.status_code response = 200%Z ∧
                         Airtable.offset_param request =
                           Airtable.get_offset (Airtable.json response)
    end.

Definition record_a : Airtable.AirtableRecord :=
  {| Airtable.id := "recA"; Airtable.fields := {[ "Title" := "Moana" ]} |}.

Definition record_b : Airtable.AirtableRecord :=
  {| Airtable.id := "recB"; Airtable.fields := {[ "id" := "7"; "Title" := "Vai" ]} |}.

Definition two_pages : list Airtable.Response :=
  [page [record_a] (Some "itr1"); page [record_b] None].

(** What the export of the two pages leaves in an empty directory. *)
Definition two_pages_files : gmap string Airtable.Artifact :=
  {[ "Films_data.json" := Airtable.JsonFile [record_a; record_b];
     "Films_data.csv" :=
       Airtable.CsvFile [ {[ "id" := "recA"; "Title" := "Moana" ]};
                          {[ "id" := "7"; "Title" := "Vai" ]} ] ]}.

Definition two_pages_run : Airtable.Run :=
  {| Airtable.accumulated := Ok [record_a; record_b];
     Airtable.returned := [record_a; record_b];
     Airtable.requests :=
       [Airtable.first_request;
        {| Airtable.page_size := 100; Airtable.offset_param := Some "itr1" |}];
     Airtable.export_dir := two_pages_files |}.

Definition example_table : Explorer.SchemaTable :=
  {| Explorer.table_id := Some "tbl1";
     Explorer.table_name := Some "Films";
     Explorer.table_fields :=
       Some [ {| Explorer.field_type := Some "singleLineText" |};
              {| Explorer.field_type := None |};
              {| Explorer.field_type := Some "number" |};
              {| Explorer.field_type := Some "singleLineText" |} ] |}.

(** The table summaries an export summary lists, base after base. *)
Definition tables_listed (summary : Migration.ExportSummary) : list Migration.TableSummary :=
  concat (Migration.bs_tables <$> Migration.es_bases summary).

(** The two totals of the summary are right, [pending] being the tables of
    the base under way. *)
Definition totals_ok (summary : Migration.ExportSummary)
    (pending : list Migration.TableSummary) : Prop :=
  Migration.total_tables summary =
    (length (tables_listed summary) + length pending)%nat ∧
  Migration.total_records summary =
    (sum_list (Migration.record_count <$> tables_listed summary)
     + sum_list (Migration.record_count <$> pending))%nat.

(** The calls of [export_base_schema] in the second pass over the bases:
    the number of each call and its base.  The first pass has made one call
    for each base. *)
Definition schema_calls_from (first : nat) (bases : list Migration.Base)
    : list (nat * Migration.Base) :=
  zip (seq first (length bases)) bases.

Definition second_pass (bases : list Migration.Base) : list (nat * Migration.Base) :=
  schema_calls_from (length bases) bases.

(** The call gets the schema of its base and can write the schema file:
    status 200, an object that is not empty, a name that can be opened. *)
Definition exportableb `{FileSystem} (server : Migration.Server)
    (call : nat * Migration.Base) : bool :=
  match Migration.meta_tables server call.1 (Migration.base_id call.2) with
  | Migration.MetaHttp status schema =>
      bool_decide (status = 200%Z) && Migration.schema_truthy schema
      && can_write (Migration.schema_file (Migration.base_name call.2))
  | Migration.MetaFails => false
  end.

(** The summary of a table repeats its identifier, name and field names. *)
Definition summarises (table : Migration.Table) (ts : Migration.TableSummary) : Prop :=
  Migration.ts_table_id ts = Migration.tbl_id table ∧
  Migration.ts_table_name ts = Migration.tbl_name table ∧
  Migration.ts_fields ts = Migration.tf_name <$> default [] (Migration.tbl_fields table).

(** The summary of a base repeats its identifier and name and summarises the
    tables of the schema that the call received, in order. *)
Definition summarises_base (server : Migration.Server)
    (call : nat * Migration.Base) (bs : Migration.BaseSummary) : Prop :=
  Migration.bs_base_id bs = Migration.base_id call.2 ∧
  Migration.bs_base_name bs = Migration.base_name call.2 ∧
  ∃ schema, Migration.meta_tables server call.1 (Migration.base_id call.2)
              = Migration.MetaHttp 200 schema ∧
            Forall2 summarises (default [] (Migration.schema_tables schema))
                    (Migration.bs_tables bs).

(** The file a listed table shares with every table of the same resolved
    name. *)
Definition stored_as `{FileSystem} (ts : Migration.TableSummary) : string :=
  resolve (Migration.ts_table_name ts).

(** The artifacts of the table hold as many records as its summary says. *)
Definition artifacts_hold `{FileSystem} (files : gmap string Airtable.Artifact)
    (ts : Migration.TableSummary) : Prop :=
  ∃ records,
    length records = Migration.record_count ts ∧
    files !! Airtable.json_file (stored_as ts) = Some (Airtable.JsonFile records) ∧
    files !! Airtable.csv_file (stored_as ts)
      = Some (Airtable.CsvFile (Airtable.csv_row <$> records)).

(** The last character of a string. *)
Fixpoint last_char (s : string) : option ascii :=
  match s with
  | EmptyString => None
  | String c EmptyString => Some c
  | String _ s' => last_char s'
  end.

(** Every listed table with at least one record has its artifacts. *)
Definition files_ok `{FileSystem} (files : gmap string Airtable.Artifact)
    (listed : list Migration.TableSummary) : Prop :=
  ∀ ts, ts ∈ listed → (0 < Migration.record_count ts)%nat → artifacts_hold files ts.

(** The tables the import instructions list, base after base. *)
Definition tables_instructed (instructions : list Instructions.BaseInstructions)
    : list Instructions.TableInstructions :=
  concat (Instructions.bi_tables <$> instructions).

(** The CSV file the instructions name is the CSV artifact of the table, and
    the directory holds it with as many rows as they announce. *)
Definition csv_ready `{FileSystem} (files : gmap string Airtable.Artifact)
    (ti : Instructions.TableInstructions) : Prop :=
  ∃ records,
    length records = Instructions.ti_record_count ti ∧
    Instructions.ti_csv_file ti = Airtable.csv_file (Instructions.ti_table_name ti) ∧
    files !! Airtable.csv_file (resolve (Instructions.ti_table_name ti))
      = Some (Airtable.CsvFile (Airtable.csv_row <$> records)).

(** A server with two bases.  The first has two tables; the name of the
    second cannot be opened as a file in a plain directory, so that base is
    skipped.  The server answers the calls of [export_table_data] with two
    pages, then with one page. *)
Definition record_c : Airtable.AirtableRecord :=
  {| Airtable.id := "recC"; Airtable.fields := {[ "Name" := "Rapa Nui" ]} |}.

Definition example_schema : Migration.Schema :=
  {| Migration.schema_tables :=
       Some [ {| Migration.tbl_id := "tbl1"; Migration.tbl_name := "Films";
                 Migration.tbl_fields := Some [ {| Migration.tf_name := "Title" |} ] |};
              {| Migration.tbl_id := "tbl2"; Migration.tbl_name := "Islands";
                 Migration.tbl_fields := Some [ {| Migration.tf_name := "Name" |} ] |} ];
     Migration.schema_other := ∅ |}.

Definition pasifika : Migration.Base :=
  {| Migration.base_id := "app1"; Migration.base_name := "Pasifika" |}.

Definition film_tv : Migration.Base :=
  {| Migration.base_id := "app2"; Migration.base_name := "Film/TV" |}.

Definition example_server : Migration.Server :=
  {| Migration.meta_bases := Migration.MetaHttp 200 (Some [pasifika; film_tv]);
     Migration.meta_tables := fun _ _ => Migration.MetaHttp 200 example_schema;
     Migration.table_pages := fun call _ _ =>
       match call with
       | O => answers two_pages
       | _ => answers [page [record_c] None]
       end |}.

Definition empty_disk : Migration.Disk :=
  {| Migration.table_files := ∅; Migration.schema_files := ∅;
     Migration.summary_file := None |}.

Definition example_summary : Migration.ExportSummary :=
  {| Migration.es_bases :=
       [ {| Migration.bs_base_id := "app1"; Migration.bs_base_name := "Pasifika";
            Migration.bs_tables :=
              [ {| Migration.ts_table_id := "tbl1"; Migration.ts_table_name := "Films";
                   Migration.record_count := 2; Migration.ts_fields := ["Title"] |};
                {| Migration.ts_table_id := "tbl2"; Migration.ts_table_name := "Islands";
                   Migration.record_count := 1; Migration.ts_fields := ["Name"] |} ] |} ];
     Migration.total_records := 3;
     Migration.total_tables := 2 |}.

Definition example_files : gmap string Airtable.Artifact :=
  {[ "Films_data.json" := Airtable.JsonFile [record_a; record_b];
     "Films_data.csv" :=
       Airtable.CsvFile [ {[ "id" := "recA"; "Title" := "Moana" ]};
                          {[ "id" := "7"; "Title" := "Vai" ]} ];
     "Islands_data.json" := Airtable.JsonFile [record_c];
     "Islands_data.csv" :=
       Airtable.CsvFile [ {[ "id" := "recC"; "Name" := "Rapa Nui" ]} ] ]}.

Definition example_disk : Migration.Disk :=
  {| Migration.table_files := example_files;
     Migration.schema_files := {[ "Pasifika_schema.json" := example_schema ]};
     Migration.summary_file := Some example_summary |}.

(** A base whose two tables lead to the same files in a plain directory,
    and what its export leaves: the summary counts the two records of the
    first table, the files hold the record of the second. *)
Definition shared_schema : Migration.Schema :=
  {| Migration.schema_tables :=
       Some [ {| Migration.tbl_id := "tbl1"; Migration.tbl_name := "Films";
                 Migration.tbl_fields := None |};
              {| Migration.tbl_id := "tbl2"; Migration.tbl_name := "./Films";
                 Migration.tbl_fields := None |} ];
     Migration.schema_other := ∅ |}.

Definition shared_server : Migration.Server :=
  {| Migration.meta_bases := Migration.MetaHttp 200 (Some [pasifika]);
     Migration.meta_tables := fun _ _ => Migration.MetaHttp 200 shared_schema;
     Migration.table_pages := fun call _ _ =>
       match call with
       | O => answers two_pages
       | _ => answers [page [record_c] None]
       end |}.

Definition shared_disk : Migration.Disk :=
  {| Migration.table_files :=
       {[ "Films_data.json" := Airtable.JsonFile [record_c];
          "Films_data.csv" :=
            Airtable.CsvFile [ {[ "id" := "recC"; "Name" := "Rapa Nui" ]} ] ]};
     Migration.schema_files := {[ "Pasifika_schema.json" := shared_schema ]};
     Migration.summary_file :=
       Some {| Migration.es_bases :=
                 [ {| Migration.bs_base_id := "app1"; Migration.bs_base_name := "Pasifika";
                      Migration.bs_tables :=
                        [ {| Migration.ts_table_id := "tbl1";
                             Migration.ts_table_name := "Films";
                             Migration.record_count := 2; Migration.ts_fields := [] |};
                          {| Migration.ts_table_id := "tbl2";
                             Migration.ts_table_name := "./Films";
                             Migration.record_count := 1; Migration.ts_fields := [] |} ] |} ];
               Migration.total_records := 3;
               Migration.total_tables := 2 |} |}.

(** * Properties *)

(** ** Name normalisation *)

Lemma dict_get_app {V} (k : string) (d1 d2 : list (string * V)) :
  dict_get k (d1 ++ d2) =
  match dict_get k d1 with
  | Some v => Some v
  | None => dict_get k d2
  end.
Proof.
  induction d1 as [|[k' v'] d1 IH]; simpl; [done|].
  by case_bool_decide.
Qed.

Lemma dict_get_None {V} (k : string) (d : list (string * V)) :
  dict_get k d = None ↔ k ∉ d.*1.
Proof.
  induction d as [|[k' v'] d IH]; simpl.
  - split; [intros _; apply not_elem_of_nil | done].
  - rewrite not_elem_of_cons. case_bool_decide; subst.
    + split; [done | intros [? _]; done].
    + rewrite IH. split; [intros ?; split; [congruence | done] | tauto].
Qed.

Lemma dict_get_Some_elem {V} (k : string) (v : V) (d : list (string * V)) :
  dict_get k d = Some v → (k, v) ∈ d.
Proof.
  induction d as [|[k' v'] d IH]; simpl; [done|].
  case_bool_decide; subst.
  - intros [= ->]. left.
  - intros. right. auto.
Qed.

(** Building a dict from a literal without repeated keys and looking a key
    up in it is a lookup in the literal. *)
Lemma fold_insert_lookup {V} (l : list (string * V)) (m : gmap string V) (k : string) :
  NoDup l.*1 →
  fold_left (fun m kv => <[kv.1 := kv.2]> m) l m !! k =
  match dict_get k l with
  | Some v => Some v
  | None => m !! k
  end.
Proof.
  revert m. induction l as [|[k' v'] l IH]; intros m Hnd; simpl; [done|].
  apply NoDup_cons in Hnd as [Hk' Hnd].
  rewrite IH by done. case_bool_decide as Hk; subst.
  - destruct (dict_get k l) eqn:E.
    + apply dict_get_Some_elem in E. exfalso. apply Hk'.
      apply list_elem_of_fmap. by exists (k, v).
    + by rewrite lookup_insert_eq.
  - destruct (dict_get k l); [done|]. by rewrite lookup_insert_ne.
Qed.

Lemma dict_literal_lookup {V} (l : list (string * V)) (k : string) :
  NoDup l.*1 → dict_literal l !! k = dict_get k l.
Proof.
  intros Hnd. unfold dict_literal. rewrite fold_insert_lookup by done.
  by destruct (dict_get k l).
Qed.

Lemma name_mappings_keys_NoDup : NoDup Clean.name_mappings_literal.*1.
Proof. apply (bool_decide_unpack _). by vm_compute. Qed.

Lemma first_standard_flat (name : string) (items : list (string * list string)) :
  Film.first_standard name items =
  substitute (flat_map (fun item => map (fun variant => (variant, item.1)) item.2
                                    ++ [(item.1, item.1)]) items) name.
Proof.
  unfold substitute.
  induction items as [|[standard variants] items IH]; simpl; [done|].
  rewrite <- app_assoc, dict_get_app. simpl.
  assert (Hv : dict_get name (map (fun variant => (variant, standard)) variants) =
               if bool_decide (name ∈ variants) then Some standard else None).
  { clear. induction variants as [|v variants IH]; simpl; [done|].
    rewrite IH. destruct (decide (v = name)) as [->|Hne].
    - rewrite !bool_decide_true; [done | left | done].
    - rewrite (bool_decide_false (v = name)) by done.
      apply (f_equal (fun b : bool => if b then Some standard else None)).
      apply bool_decide_ext. rewrite elem_of_cons. intuition congruence. }
  rewrite Hv. case_bool_decide; simpl; [done|].
  case_bool_decide; subst; simpl; [by rewrite bool_decide_true | by rewrite bool_decide_false].
Qed.

Section Normalisation.
Context `{PyStr}.

Lemma clean_normalize_spec (raw : string) :
  Clean.normalize_island_name raw = spec_normalize Clean.name_mappings_literal raw.
Proof.
  unfold Clean.normalize_island_name, Clean.name_mappings, spec_normalize, substitute.
  rewrite (dict_literal_lookup Clean.name_mappings_literal)
    by exact name_mappings_keys_NoDup.
  destruct (dict_get (strip (lower raw)) Clean.name_mappings_literal); reflexivity.
Qed.

Lemma film_normalize_spec (raw : string) :
  Film.normalize_island_name raw = spec_normalize film_alias_table raw.
Proof.
  unfold Film.normalize_island_name, spec_normalize, film_alias_table.
  exact (first_standard_flat (strip (lower raw)) Film.variations).
Qed.

Lemma substitute_fallback (table : list (string * string)) (s : string) :
  s ∉ table.*1 → substitute table s = s.
Proof.
  intros Hk. unfold substitute. apply dict_get_None in Hk. rewrite Hk. reflexivity.
Qed.

(** C3. Both normalisers are the function "lowercase, trim, substitute
    through one fixed table": [normalize_island_name] of
    create-clean-film-islands.py with the (alias, canonical) pairs of its
    [name_mappings] literal, the one of create-film-islands.py with the pairs
    that [variations] lists; and whenever the lowercased, trimmed input is not
    a key of the table, it is returned as it is. *)
Theorem normalize_is_table_substitution (raw : string) :
  Clean.normalize_island_name raw = spec_normalize Clean.name_mappings_literal raw ∧
  Film.normalize_island_name raw = spec_normalize film_alias_table raw ∧
  (strip (lower raw) ∉ Clean.name_mappings_literal.*1 →
     Clean.normalize_island_name raw = strip (lower raw)) ∧
  (strip (lower raw) ∉ film_alias_table.*1 →
     Film.normalize_island_name raw = strip (lower raw)).
Proof.
  split; [apply clean_normalize_spec|].
  split; [apply film_normalize_spec|].
  split; intros Hk.
  - rewrite clean_normalize_spec. apply substitute_fallback, Hk.
  - rewrite film_normalize_spec. apply substitute_fallback, Hk.
Qed.

End Normalisation.

Lemma normalize_is_table_substitution_example :
  Clean.normalize_island_name "  Rapa Nui " = "easter island" ∧
  Film.normalize_island_name " Easter Island" = "rapa nui" ∧
  Clean.normalize_island_name " Tahiti " = "tahiti" ∧
  Film.normalize_island_name " Tahiti " = "tahiti".
Proof.
  split; [by vm_compute|]. split; [by vm_compute|].
  destruct (normalize_is_table_substitution " Tahiti ") as (_ & _ & Hclean & Hfilm).
  split.
  - apply Hclean. apply (bool_decide_unpack _). by vm_compute.
  - apply Hfilm. apply (bool_decide_unpack _). by vm_compute.
Defined.

(** ** The paginated export *)

Section Pagination.
Import Airtable.
Context `{FileSystem}.

Lemma get_records_in (response : Response) :
  get_records (json response) = records_in response.
Proof. unfold get_records, records_in. by destruct (page_records (json response)). Qed.

Lemma truthy_token_of (response : Response) :
  truthy (get_offset (json response)) =
    match token_of response with
    | Some _ => true
    | None => false
    end.
Proof.
  unfold truthy, get_offset, token_of.
  destruct (page_offset (json response)) as [token|]; [|done].
  destruct (String.eqb_spec token "") as [->|Hne]; [done|].
  by rewrite bool_decide_false.
Qed.

Lemma continues_has_next (response : Response) : continues response ↔ has_next response.
Proof.
  unfold continues, has_next. rewrite truthy_token_of.
  destruct (token_of response); split; intros [Hst Htok]; split; done.
Qed.

(** The loop appends to what it has: when it is left, the records are those
    it started with followed by the records of the pages it fetched, page by
    page. *)
Lemma fetch_loop_pages (responses : list Response) :
  ∀ offset acc pc sent loop,
    fetch_loop (answers responses) offset acc pc sent = Some loop →
    loop_records loop =
      Ok (acc ++ concat (records_in <$>
                           if truthy offset then pages_fetched responses else [])).
Proof.
  induction responses as [|r responses IH]; intros offset acc pc sent loop; simpl.
  - destruct (truthy offset); [done|]. intros [= <-]. simpl. by rewrite app_nil_r.
  - destruct (truthy offset).
    + unfold is_ok. case_bool_decide as Hst.
      * intros Hloop. apply IH in Hloop. rewrite Hloop.
        rewrite truthy_token_of, get_records_in.
        destruct (token_of r); simpl; by rewrite <- app_assoc, ?app_nil_r.
      * intros [= <-]. simpl. by rewrite app_nil_r.
    + intros [= <-]. simpl. by rewrite app_nil_r.
Qed.

(** The call returns as soon as the server sends a response that ends the
    loop: it cannot go on for ever against a server that ends its pages. *)
Lemma fetch_loop_returns (responses : list Response) :
  Exists ends_fetch responses →
  ∀ offset acc pc sent, is_Some (fetch_loop (answers responses) offset acc pc sent).
Proof.
  induction 1 as [r responses Hend|r responses _ IH]; intros offset acc pc sent; simpl.
  - destruct (truthy offset); [|by eexists]. case_bool_decide as Hst; [|by eexists].
    destruct Hend as [Hne|Hoff]; [done|].
    destruct responses; simpl; rewrite Hoff; by eexists.
  - destruct (truthy offset); [|by eexists]. case_bool_decide; [apply IH | by eexists].
Qed.

Lemma export_table_data_returns
    (table_name : string) (files : gmap string Artifact) (responses : list Response) :
  Exists ends_fetch responses →
  is_Some (export_table_data table_name files (answers responses)).
Proof.
  intros Hex. destruct responses as [|first responses]; [by apply Exists_nil in Hex|].
  simpl. case_bool_decide as Hst; [by eexists|].
  assert (Hloop : is_Some (fetch_loop (answers responses) (get_offset (json first))
                             (get_records (json first)) 1 [first_request])).
  { apply Exists_cons in Hex as [[Hne|Hoff]|Hex].
    - done.
    - destruct responses; simpl; rewrite Hoff; by eexists.
    - by apply fetch_loop_returns. }
  destruct Hloop as [loop ->]. simpl. destruct (loop_records loop); [|by eexists].
  destruct (save _ _ _). by eexists.
Qed.

Lemma string_app_inj (t a b : string) : t +:+ a = t +:+ b → a = b.
Proof. induction t as [|c t IH]; simpl; [done|]. intros [= Heq]. auto. Qed.

Lemma json_csv_distinct (table_name : string) : json_file table_name ≠ csv_file table_name.
Proof. intros Heq. apply string_app_inj in Heq. discriminate. Qed.

(** What [save] leaves: it touches no file but the two artifacts of the
    table; if no [open] raises, the JSON artifact holds the records and the
    CSV artifact, written when there are records, their rows; if one raises,
    the CSV artifact is as it was. *)
Lemma save_spec (table_name : string) (all_records : list AirtableRecord)
    (files files' : gmap string Artifact) (saved : result unit) :
  save table_name all_records files = (files', saved) →
  (∀ path, path ≠ json_file (resolve table_name) → path ≠ csv_file (resolve table_name) →
     files' !! path = files !! path) ∧
  match saved with
  | Ok _ =>
      can_save table_name all_records = true ∧
      files' !! json_file (resolve table_name) = Some (JsonFile all_records) ∧
      (all_records ≠ [] →
         files' !! csv_file (resolve table_name) = Some (CsvFile (csv_row <$> all_records))) ∧
      (all_records = [] →
         files' !! csv_file (resolve table_name) = files !! csv_file (resolve table_name))
  | Raise e =>
      can_save table_name all_records = false ∧
      files' !! csv_file (resolve table_name) = files !! csv_file (resolve table_name)
  end.
Proof.
  pose proof (json_csv_distinct (resolve table_name)) as Hne.
  unfold save, can_save. destruct (can_write (json_file table_name)); simpl.
  - destruct all_records as [|r l].
    + intros [= <- <-]. split.
      * intros path H1 _. by rewrite lookup_insert_ne.
      * split; [done|]. split; [apply lookup_insert_eq|]. split; [done|].
        intros _. by rewrite lookup_insert_ne.
    + rewrite bool_decide_false by done. simpl.
      destruct (can_write (csv_file table_name)).
      * intros [= <- <-]. split.
        -- intros path H1 H2. by rewrite !lookup_insert_ne.
        -- split; [done|]. split; [by rewrite lookup_insert_ne, lookup_insert_eq|].
           split; [intros _; apply lookup_insert_eq | done].
      * intros [= <- <-]. split.
        -- intros path H1 _. by rewrite lookup_insert_ne.
        -- split; [done|]. by rewrite lookup_insert_ne.
  - intros [= <- <-]. done.
Qed.

(** C4. Whatever the server's page responses are, when [export_table_data]
    returns, the records it has accumulated are the concatenation, in fetch
    order, of the record lists of the pages of the fetch: the first response
    and each response after a page with a token, up to the first response
    that is not a success.  That list is also what the call returns if the
    artifacts of the table can be written; if they cannot, it returns the
    empty list. *)
Theorem accumulation_preserves_order
    (table_name : string) (files : gmap string Artifact)
    (responses : list Response) (run : Run) :
  export_table_data table_name files (answers responses) = Some run →
  accumulated run = Ok (concat (records_in <$> pages_fetched responses)) ∧
  returned run =
    if can_save table_name (concat (records_in <$> pages_fetched responses))
    then concat (records_in <$> pages_fetched responses)
    else [].
Proof.
  destruct responses as [|first responses]; simpl; [done|].
  destruct (decide (status_code first = 200%Z)) as [Hst|Hst].
  2:{ rewrite bool_decide_true by done.
      assert (Hok : is_ok first = false) by (unfold is_ok; by rewrite bool_decide_false).
      rewrite !Hok. intros [= <-]. simpl. split; [done|]. by destruct (can_save _ _). }
  rewrite bool_decide_false by (intros Hne; by apply Hne).
  assert (Hok : is_ok first = true) by (unfold is_ok; by rewrite bool_decide_true).
  rewrite !Hok.
  - destruct (fetch_loop _ _ _ _ _) as [loop|] eqn:Hloop; simpl; [|done].
    apply (fetch_loop_pages responses) in Hloop.
    rewrite truthy_token_of, get_records_in in Hloop.
    replace (if match token_of first with Some _ => true | None => false end
             then pages_fetched responses else [])
      with (match token_of first with Some _ => pages_fetched responses | None => [] end)
      in Hloop by (by destruct (token_of first)).
    unfold fmap in Hloop. rewrite Hloop.
    destruct (save _ _ _) as [files' saved] eqn:Hsave.
    apply save_spec in Hsave as [_ Hsaved].
    intros [= <-]. simpl. split; [done|].
    destruct saved as [[]|e]; destruct Hsaved as [-> _]; done.
Qed.

(** Without a token the loop is not entered, whatever the server would say. *)
Lemma fetch_loop_stop (server : list Reply) offset acc pc sent :
  truthy offset = false →
  fetch_loop server offset acc pc sent =
    Some {| loop_records := Ok acc; loop_pages := pc; loop_sent := sent |}.
Proof. intros Hf. destruct server; simpl; by rewrite Hf. Qed.

(** C5. First page: 100 records and a continuation token; second page: 37
    records and no token.  Whatever the server would answer afterwards, the
    call ends after exactly two requests (the second carrying the token)
    with the 137 records accumulated, first page first.  It returns them if
    the artifacts of the table can be written, and the empty list if not. *)
Theorem two_page_fetch
    (table_name : string) (files : gmap string Artifact)
    (records1 records2 : list AirtableRecord) (token : string) (later : list Reply) :
  length records1 = 100 →
  length records2 = 37 →
  token ≠ "" →
  ∃ run,
    export_table_data table_name files
      (Http (page records1 (Some token)) :: Http (page records2 None) :: later) = Some run ∧
    requests run = [first_request; {| page_size := 100; offset_param := Some token |}] ∧
    accumulated run = Ok (records1 ++ records2) ∧
    length (records1 ++ records2) = 137 ∧
    returned run =
      if can_save table_name (records1 ++ records2) then records1 ++ records2 else [].
Proof.
  intros H1 H2 Htok.
  destruct (save table_name (records1 ++ records2) files) as [files' saved] eqn:Hsave.
  eexists. split.
  - unfold export_table_data, page. simpl.
    rewrite (bool_decide_false (token = "")) by done. simpl.
    rewrite fetch_loop_stop by done. simpl. unfold get_records. simpl.
    rewrite Hsave. reflexivity.
  - simpl. split; [done|]. split; [done|].
    split; [rewrite length_app, H1, H2; done|].
    apply save_spec in Hsave as [_ Hsaved].
    destruct saved as [[]|e]; destruct Hsaved as [-> _]; done.
Qed.

(** While the pages are followed by further pages, the loop goes on. *)
Lemma fetch_loop_then_error (pages : list Response) (bad : Response) (later : list Reply) :
  Forall has_next pages →
  status_code bad ≠ 200%Z →
  ∀ offset acc pc sent,
    truthy offset = true →
    ∃ sent',
      fetch_loop (answers pages ++ Http bad :: later) offset acc pc sent =
        Some {| loop_records := Ok (acc ++ concat ((fun r => get_records (json r)) <$> pages));
                loop_pages := pc + length pages;
                loop_sent := sent' |} ∧
      length sent' = (length sent + length pages + 1)%nat.
Proof.
  intros Hpages Hbad. induction Hpages as [|r pages [Hst Hoff] _ IH];
    intros offset acc pc sent Htruthy; simpl; rewrite Htruthy.
  - rewrite bool_decide_false by done. eexists. split.
    + rewrite app_nil_r, Nat.add_0_r. reflexivity.
    + rewrite length_app. simpl. lia.
  - rewrite bool_decide_true by done.
    destruct (IH (get_offset (json r)) (acc ++ get_records (json r)) (S pc)
                 (sent ++ [{| page_size := 100; offset_param := offset |}]) Hoff)
      as (sent' & -> & Hlen).
    exists sent'. split.
    + rewrite <- app_assoc. do 2 f_equal. lia.
    + rewrite Hlen, length_app. simpl. lia.
Qed.

Lemma csv_row_is_row (record : AirtableRecord) : is_row_of record (csv_row record).
Proof.
  intros column. unfold csv_row. rewrite lookup_union.
  destruct (fields record !! column) as [value|] eqn:Hf; simpl.
  - by destruct ({[ "id" := id record ]} !! column).
  - case_bool_decide as Hid.
    + subst column. by rewrite lookup_singleton_eq.
    + by rewrite lookup_singleton_ne.
Qed.

Lemma csv_rows_are_rows (records : list AirtableRecord) :
  Forall2 is_row_of records (csv_row <$> records).
Proof.
  induction records as [|r l IH]; simpl; constructor; [apply csv_row_is_row | done].
Qed.

(** C10. After at least one successful page that announces a further one, a
    response with a status other than 200 ends the loop.  If the artifacts of
    the table can be written, the call still returns the records of the pages
    fetched so far, after writing them to the JSON artifact and, as rows, to
    the CSV artifact (the CSV is written when there is at least one record);
    no other file changes, and no request follows the failed one. *)
Theorem partial_result_is_persisted
    (table_name : string) (files : gmap string Artifact)
    (first : Response) (pages : list Response) (bad : Response) (later : list Reply) :
  continues first →
  Forall continues pages →
  status_code bad ≠ 200%Z →
  can_save table_name (concat (records_in <$> first :: pages)) = true →
  ∃ run,
    export_table_data table_name files (answers (first :: pages) ++ Http bad :: later)
      = Some run ∧
    returned run = concat (records_in <$> first :: pages) ∧
    export_dir run !! json_file (resolve table_name)
      = Some (JsonFile (concat (records_in <$> first :: pages))) ∧
    (concat (records_in <$> first :: pages) ≠ [] →
       ∃ rows, export_dir run !! csv_file (resolve table_name) = Some (CsvFile rows) ∧
               Forall2 is_row_of (concat (records_in <$> first :: pages)) rows) ∧
    (∀ path, path ≠ json_file (resolve table_name) → path ≠ csv_file (resolve table_name) →
       export_dir run !! path = files !! path) ∧
    length (requests run) = (length pages + 2)%nat.
Proof.
  intros Hfirst Hpages Hbad Hsave.
  apply continues_has_next in Hfirst as [Hst Hoff].
  assert (Hnext : Forall has_next pages).
  { eapply Forall_impl; [exact Hpages|]. intros r. apply continues_has_next. }
  simpl. rewrite bool_decide_false by (intros Hne; apply Hne, Hst).
  destruct (fetch_loop_then_error pages bad later Hnext Hbad
              (get_offset (json first)) (get_records (json first)) 1
              [first_request] Hoff) as (sent' & -> & Hlen).
  simpl.
  assert (Hpl : get_records (json first) ++
                concat ((fun r => get_records (json r)) <$> pages) =
                concat (records_in <$> first :: pages)).
  { simpl. rewrite get_records_in. do 2 f_equal. }
  rewrite Hpl.
  destruct (save _ _ _) as [files' saved] eqn:Hsaved.
  apply save_spec in Hsaved as [Hother Hsaved].
  eexists. split; [reflexivity|]. simpl.
  destruct saved as [[]|e].
  - destruct Hsaved as (_ & Hjson & Hcsv & _).
    split; [done|]. split; [done|]. split.
    { intros Hne. eexists. split; [by apply Hcsv | apply csv_rows_are_rows]. }
    split; [done|]. rewrite Hlen. simpl. lia.
  - destruct Hsaved as [Hno _]. congruence.
Qed.

(** A name that cannot be opened loses the records: the call returns the
    empty list and writes nothing, whatever it has fetched. *)
Lemma unwritable_name_returns_nothing
    (table_name : string) (files : gmap string Artifact)
    (server : list Reply) (run : Run) :
  can_write (json_file table_name) = false →
  export_table_data table_name files server = Some run →
  returned run = [] ∧ export_dir run = files.
Proof.
  intros Hno. destruct server as [|[first|] server]; simpl; [done| |].
  - case_bool_decide; [by intros [= <-]|].
    destruct (fetch_loop _ _ _ _ _) as [loop|]; simpl; [|done].
    destruct (loop_records loop); [|by intros [= <-]].
    unfold save. rewrite Hno. by intros [= <-].
  - by intros [= <-].
Qed.

End Pagination.

Section PaginationExamples.
Import Airtable.

Lemma two_pages_run_computed :
  export_table_data "Films" ∅ (answers two_pages) = Some two_pages_run.
Proof. by vm_compute. Qed.

Lemma two_page_fetch_example :
  ∃ run,
    export_table_data "Films" ∅
      [Http (page (replicate 100 {| id := "rec1"; fields := ∅ |}) (Some "itr1/rec100"));
       Http (page (replicate 37 {| id := "rec2"; fields := ∅ |}) None)] = Some run ∧
    requests run =
      [first_request; {| page_size := 100; offset_param := Some "itr1/rec100" |}] ∧
    accumulated run = Ok (replicate 100 {| id := "rec1"; fields := ∅ |}
                          ++ replicate 37 {| id := "rec2"; fields := ∅ |}) ∧
    length (replicate 100 {| id := "rec1"; fields := ∅ |}
            ++ replicate 37 {| id := "rec2"; fields := ∅ |}) = 137 ∧
    returned run = replicate 100 {| id := "rec1"; fields := ∅ |}
                   ++ replicate 37 {| id := "rec2"; fields := ∅ |}.
Proof.
  assert (Htoken : "itr1/rec100" ≠ "") by discriminate.
  exact (two_page_fetch "Films" ∅ (replicate 100 {| id := "rec1"; fields := ∅ |})
           (replicate 37 {| id := "rec2"; fields := ∅ |}) "itr1/rec100" []
           (length_replicate _ _) (length_replicate _ _) Htoken).
Defined.

Lemma accumulation_preserves_order_example :
  export_table_data "Films" ∅ (answers two_pages) = Some two_pages_run ∧
  accumulated two_pages_run = Ok [record_a; record_b] ∧
  returned two_pages_run = [record_a; record_b].
Proof.
  split; [exact two_pages_run_computed|].
  exact (accumulation_preserves_order "Films" ∅ two_pages two_pages_run
           two_pages_run_computed).
Defined.

Lemma partial_result_is_persisted_example :
  ∃ run,
    export_table_data "Films" ∅
      [Http (page [record_a] (Some "itr1")); Http (page [record_b] (Some "itr2"));
       Http {| status_code := 429;
               json := {| page_records := None; page_offset := None |} |}] = Some run ∧
    returned run = [record_a; record_b] ∧
    export_dir run !! "Films_data.json" = Some (JsonFile [record_a; record_b]) ∧
    ([record_a; record_b] ≠ [] →
       ∃ rows, export_dir run !! "Films_data.csv" = Some (CsvFile rows) ∧
               Forall2 is_row_of [record_a; record_b] rows) ∧
    (∀ path, path ≠ "Films_data.json" → path ≠ "Films_data.csv" →
       export_dir run !! path = (∅ : gmap string Artifact) !! path) ∧
    length (requests run) = 3.
Proof.
  assert (Hfirst : continues (page [record_a] (Some "itr1"))).
  { split; [reflexivity | by eexists]. }
  assert (Hpages : Forall continues [page [record_b] (Some "itr2")]).
  { constructor; [split; [reflexivity | by eexists] | constructor]. }
  assert (Hbad : status_code {| status_code := 429;
                                json := {| page_records := None; page_offset := None |} |}
                 ≠ 200%Z) by discriminate.
  exact (partial_result_is_persisted "Films" ∅
           (page [record_a] (Some "itr1")) [page [record_b] (Some "itr2")] _ []
           Hfirst Hpages Hbad eq_refl).
Defined.

(** The same interrupted export, computed: the two records are returned and
    the directory holds them in both artifacts.  Under a name that cannot be
    opened, the records are lost. *)
Lemma interrupted_export_computed :
  export_table_data "Films" ∅
    (answers [page [record_a] (Some "itr1"); page [record_b] (Some "itr2")]
     ++ [Http {| status_code := 429;
                 json := {| page_records := None; page_offset := None |} |}])
  = Some {| accumulated := Ok [record_a; record_b];
            returned := [record_a; record_b];
            requests := [first_request;
                         {| page_size := 100; offset_param := Some "itr1" |};
                         {| page_size := 100; offset_param := Some "itr2" |}];
            export_dir := two_pages_files |}.
Proof. by vm_compute. Qed.

Lemma unwritable_name_computed :
  export_table_data "Films/TV" ∅ (answers two_pages)
  = Some {| accumulated := Ok [record_a; record_b];
            returned := [];
            requests := [first_request;
                         {| page_size := 100; offset_param := Some "itr1" |}];
            export_dir := ∅ |}.
Proof. by vm_compute. Qed.

End PaginationExamples.

(** ** The credential check *)

Section CredentialCheck.
Import Credentials.
#[local] Arguments str_prefix : simpl never.

Lemma prefix_present (s : string) : str_prefix "pat" s = true → present (Some s) = true.
Proof.
  intros Hp. unfold present. rewrite bool_decide_false; [done|].
  intros ->. discriminate.
Qed.

(** [AirtableToBaseRow()] accepts the token "abc". *)
Lemma baserow_accepts_any_token : ¬ baserow_checks_prefix.
Proof.
  intros Hclaim.
  destruct (Hclaim {[ env_key := "abc" ]}) as [e He]; [reflexivity|].
  vm_compute in He. discriminate.
Qed.

(** C8, as the code has it.  [AirtableExplorer.__init__] raises [ValueError]
    exactly when the token (from the environment or the [.env] file) is
    missing, empty or does not start with "pat", it has made no network
    request by then, and it accepts every token that starts with "pat";
    [AirtableToBaseRow.__init__] raises [ValueError] exactly when the token is
    missing or empty, makes no network request either, and accepts every
    other token. *)
Theorem credential_checks (environ dotenv : gmap string string) :
  let token := load_dotenv environ dotenv !! env_key in
  (fails_prefix_check token →
     (∃ msg, (explorer_init environ dotenv).1 = Raise (ValueError msg)) ∧
     no_network (explorer_init environ dotenv).2) ∧
  (∀ s, token = Some s → str_prefix "pat" s = true →
     (explorer_init environ dotenv).1 = Ok s ∧
     no_network (explorer_init environ dotenv).2) ∧
  (present (environ !! env_key) = false →
     (∃ msg, (baserow_init environ).1 = Raise (ValueError msg)) ∧
     no_network (baserow_init environ).2) ∧
  (∀ s, environ !! env_key = Some s → s ≠ "" →
     (baserow_init environ).1 = Ok s ∧ no_network (baserow_init environ).2).
Proof.
  intros token. unfold explorer_init, baserow_init, no_network. fold token.
  clearbody token. split_and!.
  - intros Hfail. destruct token as [s|]; simpl in *.
    + case_bool_decide; simpl.
      * split; [eauto | repeat constructor].
      * rewrite Hfail. simpl. split; [eauto | repeat constructor].
    + split; [eauto | repeat constructor].
  - intros s -> Hp. rewrite (prefix_present s Hp). simpl. rewrite Hp. simpl.
    split; [done | repeat constructor].
  - intros ->. simpl. split; [eauto | constructor].
  - intros s -> Hne. simpl. rewrite bool_decide_false by done. simpl.
    split; [done | repeat constructor].
Qed.

Lemma credential_checks_example :
  (fails_prefix_check (load_dotenv {[ env_key := "keyXYZ" ]} ∅ !! env_key) ∧
   ((∃ msg, (explorer_init {[ env_key := "keyXYZ" ]} ∅).1 = Raise (ValueError msg)) ∧
    no_network (explorer_init {[ env_key := "keyXYZ" ]} ∅).2)) ∧
  (str_prefix "pat" "patXYZ" = true ∧
   ((explorer_init ∅ {[ env_key := "patXYZ" ]}).1 = Ok "patXYZ" ∧
    no_network (explorer_init ∅ {[ env_key := "patXYZ" ]}).2)) ∧
  (present ((∅ : gmap string string) !! env_key) = false ∧
   ((∃ msg, (baserow_init ∅).1 = Raise (ValueError msg)) ∧
    no_network (baserow_init ∅).2)) ∧
  ((baserow_init {[ env_key := "keyXYZ" ]}).1 = Ok "keyXYZ" ∧
   no_network (baserow_init {[ env_key := "keyXYZ" ]}).2).
Proof.
  pose proof (credential_checks {[ env_key := "keyXYZ" ]} ∅) as (Hbad & _ & _ & Hany).
  pose proof (credential_checks ∅ {[ env_key := "patXYZ" ]}) as (_ & Hgood & _ & _).
  pose proof (credential_checks ∅ ∅) as (_ & _ & Hmissing & _).
  split; [split; [reflexivity | apply Hbad; reflexivity]|].
  split; [split; [reflexivity | apply (Hgood "patXYZ"); reflexivity]|].
  split; [split; [reflexivity | apply Hmissing; reflexivity]|].
  apply (Hany "keyXYZ"); [reflexivity | discriminate].
Defined.

End CredentialCheck.

(** ** Unreadable input files *)

Section Unreadable.
Context `{PyStr}.

Lemma not_target_of_empty (feature : Feature) :
  Clean.is_target_island feature ∅ = false.
Proof.
  unfold Clean.is_target_island. apply bool_decide_false.
  intros (t & Ht & _). by apply not_elem_of_empty in Ht.
Qed.

Lemma groups_of_empty (features : list Feature) (groups : list (string * Clean.Group)) :
  fold_left (Clean.group_step ∅) features groups = groups.
Proof.
  revert groups. induction features as [|f features IH]; intros groups; simpl; [done|].
  unfold Clean.group_step at 2. rewrite not_target_of_empty. apply IH.
Qed.

Lemma filter_features_empty (features : list Feature) :
  Clean.filter_features features ∅ = Ok [].
Proof. unfold Clean.filter_features. rewrite groups_of_empty. reflexivity. Qed.

(** C9. An input file that is missing or is not JSON makes [load_geojson]
    return [None] and [load_film_data] return the empty list, no exception
    leaving either; then [get_film_islands] returns the empty set, the script
    run on any feature collection writes a collection of zero features and
    returns normally, and a script whose feature file is the unreadable one
    returns without writing and without an exception. *)
Theorem unreadable_inputs_degrade
    (islands_file : File (list Feature)) (film_file : File (list Film)) :
  unreadable islands_file →
  unreadable film_file →
  Clean.load_geojson islands_file = Ok None ∧
  Clean.load_film_data film_file = Ok [] ∧
  Clean.get_film_islands film_file = Ok ∅ ∧
  (∀ features,
     Clean.create_clean_film_islands (Parsed features) film_file =
       (Some [], Ok (Some Clean.output_file))) ∧
  (∀ films,
     Clean.create_clean_film_islands islands_file films = (None, Ok None)).
Proof.
  intros Hgeo Hfilm.
  assert (Hg : Clean.load_geojson islands_file = Ok None)
    by (destruct islands_file; done).
  assert (Hf : Clean.load_film_data film_file = Ok [])
    by (destruct film_file; done).
  assert (Hi : Clean.get_film_islands film_file = Ok ∅)
    by (unfold Clean.get_film_islands; rewrite Hf; done).
  split_and!; try done.
  - intros features. unfold Clean.create_clean_film_islands.
    rewrite Hi. simpl. rewrite filter_features_empty. reflexivity.
  - intros films. unfold Clean.create_clean_film_islands. by rewrite Hg.
Qed.

End Unreadable.

Lemma unreadable_inputs_degrade_example :
  Clean.load_geojson Missing = Ok None ∧
  Clean.load_film_data Unparsable = Ok [] ∧
  Clean.get_film_islands Unparsable = Ok ∅ ∧
  (∀ features,
     Clean.create_clean_film_islands (Parsed features) Unparsable =
       (Some [], Ok (Some Clean.output_file))) ∧
  (∀ films,
     Clean.create_clean_film_islands Missing films = (None, Ok None)).
Proof. apply (unreadable_inputs_degrade Missing Unparsable); exact I. Defined.

(** ** Sorting by area *)

Lemma Qltb_true (a b : Q) : Qltb a b = true ↔ (a < b)%Q.
Proof.
  unfold Qltb. rewrite Qlt_alt. destruct (a ?= b)%Q; split; congruence.
Qed.

Lemma Qltb_false (a b : Q) : Qltb a b = false ↔ (b <= a)%Q.
Proof.
  rewrite <- not_true_iff_false, Qltb_true. split.
  - apply Qnot_lt_le.
  - apply Qle_not_lt.
Qed.

Lemma key_ge_trans {A} : Transitive (@key_ge A).
Proof.
  intros x y z. unfold key_ge. rewrite !Qltb_false. intros Hxy Hyz.
  by apply Qle_trans with y.1.
Qed.

Lemma insert_desc_perm {A} (x : Q * A) (l : list (Q * A)) :
  Clean.insert_desc x l ≡ₚ x :: l.
Proof.
  induction l as [|y l IH]; simpl; [done|].
  destruct (Qltb x.1 y.1); [|done].
  rewrite IH. apply Permutation_swap.
Qed.

Lemma sort_desc_perm {A} (l : list (Q * A)) : Clean.sort_desc l ≡ₚ l.
Proof.
  induction l as [|x l IH]; simpl; [done|].
  by rewrite insert_desc_perm, IH.
Qed.

Lemma insert_desc_HdRel {A} (x y : Q * A) (l : list (Q * A)) :
  key_ge y x → HdRel key_ge y l → HdRel key_ge y (Clean.insert_desc x l).
Proof.
  intros Hyx Hhd. destruct l as [|z l]; simpl.
  - by constructor.
  - destruct (Qltb x.1 z.1); constructor; [by inversion Hhd | done].
Qed.

Lemma insert_desc_Sorted {A} (x : Q * A) (l : list (Q * A)) :
  Sorted key_ge l → Sorted key_ge (Clean.insert_desc x l).
Proof.
  induction 1 as [|y l Hs IH Hhd]; simpl.
  - repeat constructor.
  - destruct (Qltb x.1 y.1) eqn:Hlt.
    + constructor; [done|]. apply insert_desc_HdRel; [|done].
      unfold key_ge. apply Qltb_false. apply Qltb_true in Hlt. by apply Qlt_le_weak.
    + constructor; [by constructor|]. by constructor.
Qed.

Lemma sort_desc_Sorted {A} (l : list (Q * A)) : Sorted key_ge (Clean.sort_desc l).
Proof.
  induction l as [|x l IH]; simpl; [constructor|]. by apply insert_desc_Sorted.
Qed.

(** Sorting a list that is in order already changes nothing. *)
Lemma sort_desc_sorted_id {A} (l : list (Q * A)) :
  Sorted key_ge l → Clean.sort_desc l = l.
Proof.
  induction 1 as [|x l Hs IH Hhd]; simpl; [done|].
  rewrite IH. destruct Hhd as [|y l Hxy]; simpl; [done|].
  unfold key_ge in Hxy. by rewrite Hxy.
Qed.

(** ** Sequencing over lists *)

Lemma mapM_Ok {A B} (f : A → result B) (l : list A) (l' : list B) :
  mapM f l = Ok l' ↔ Forall2 (fun x y => f x = Ok y) l l'.
Proof.
  revert l'. induction l as [|x l IH]; intros l'; simpl.
  - split.
    + intros [= <-]. constructor.
    + inversion 1. done.
  - split.
    + destruct (f x) as [y|e] eqn:Hx; simpl; [|done].
      destruct (mapM f l) as [ys|e] eqn:Hl; simpl; [|done].
      intros [= <-]. constructor; [done|]. by apply IH.
    + inversion 1 as [|? y ? ys Hx Hl]; subst. rewrite Hx. simpl.
      apply IH in Hl. rewrite Hl. done.
Qed.

(** ** Ordered dictionaries *)

Lemma dict_get_set {V} (k k' : string) (v : V) (d : list (string * V)) :
  dict_get k' (dict_set k v d) = if decide (k' = k) then Some v else dict_get k' d.
Proof.
  induction d as [|[k0 v0] d IH]; simpl.
  - case_bool_decide; case_decide; congruence.
  - case_bool_decide as H0; simpl.
    + subst k0. case_bool_decide; case_decide; congruence.
    + rewrite IH. case_bool_decide; case_decide; congruence.
Qed.

Lemma dict_set_new {V} (k : string) (v : V) (d : list (string * V)) :
  dict_get k d = None → dict_set k v d = d ++ [(k, v)].
Proof.
  induction d as [|[k0 v0] d IH]; simpl; [done|].
  case_bool_decide; [done|]. intros Hn. by rewrite IH.
Qed.

Lemma dict_set_keys {V} (k : string) (v : V) (d : list (string * V)) :
  is_Some (dict_get k d) → (dict_set k v d).*1 = d.*1.
Proof.
  induction d as [|[k0 v0] d IH]; simpl.
  - by intros [? ?].
  - case_bool_decide; simpl; [by subst|]. intros Hs. f_equal. by apply IH.
Qed.

Lemma dict_set_NoDup {V} (k : string) (v : V) (d : list (string * V)) :
  NoDup d.*1 → NoDup (dict_set k v d).*1.
Proof.
  intros Hnd. destruct (dict_get k d) as [old|] eqn:Hget.
  - by rewrite dict_set_keys.
  - rewrite dict_set_new by done. rewrite fmap_app. simpl.
    apply NoDup_app. split; [done|]. split; [|apply NoDup_singleton].
    intros k' Hk' ->%list_elem_of_singleton. by apply dict_get_None in Hget.
Qed.

Lemma dict_get_elem {V} (k : string) (v : V) (d : list (string * V)) :
  NoDup d.*1 → (k, v) ∈ d → dict_get k d = Some v.
Proof.
  induction d as [|[k0 v0] d IH]; simpl; intros Hnd Hin.
  - by apply elem_of_nil in Hin.
  - apply NoDup_cons in Hnd as [Hk0 Hnd].
    apply elem_of_cons in Hin as [[= -> ->]|Hin].
    + by rewrite bool_decide_true.
    + rewrite bool_decide_false; [by apply IH|].
      intros ->. apply Hk0. apply list_elem_of_fmap. by exists (k, v).
Qed.

(** ** The clean filter: grouping *)

Section Grouping.
Context `{PyStr}.
Implicit Types (refs : gset string) (f g : Feature) (seen features : list Feature).

Lemma is_target_iff f refs :
  Clean.is_target_island f refs = true ↔ matches_reference refs f.
Proof.
  unfold Clean.is_target_island. rewrite bool_decide_eq_true.
  unfold set_Exists, matches_reference, canonical. reflexivity.
Qed.

Lemma is_target_false f refs :
  Clean.is_target_island f refs = false → ¬ matches_reference refs f.
Proof. intros Hf Hm. apply is_target_iff in Hm. congruence. Qed.

Lemma group_step_unfold refs groups f :
  Clean.group_step refs groups f =
  if Clean.is_target_island f refs then
    match dict_get (canonical f) groups with
    | None => dict_set (canonical f) (entry_of f) groups
    | Some old =>
        if Qltb (Clean.group_area old) (get_area f)
        then dict_set (canonical f) (entry_of f) groups
        else groups
    end
  else groups.
Proof. reflexivity. Qed.

(** A candidate stays the best one when a feature that does not beat it is
    appended. *)
Lemma best_candidate_snoc refs seen i f g :
  best_candidate refs seen i g →
  (matches_reference refs f → canonical f = canonical g → (get_area f <= get_area g)%Q) →
  best_candidate refs (seen ++ [f]) i g.
Proof.
  intros (Hi & Hm & Hbest) Hf. split_and!; [|done|].
  - by apply lookup_app_l_Some.
  - intros j g' Hj Hm' Hk. apply lookup_snoc_Some in Hj as [[Hlt Hj]|[-> <-]].
    + by apply (Hbest j g').
    + split; [by apply Hf|]. intros _. apply lookup_lt_Some in Hi. lia.
Qed.

(** The appended feature is the best candidate when it beats what was seen. *)
Lemma best_candidate_new refs seen f :
  matches_reference refs f →
  (∀ j g, seen !! j = Some g → matches_reference refs g → canonical g = canonical f →
          (get_area g < get_area f)%Q) →
  best_candidate refs (seen ++ [f]) (length seen) f.
Proof.
  intros Hm Hlt. split_and!; [|done|].
  - by apply list_lookup_middle.
  - intros j g Hj Hmg Hk. apply lookup_snoc_Some in Hj as [[Hj1 Hj]|[-> <-]].
    + pose proof (Hlt j g Hj Hmg Hk) as Hl. split; [by apply Qlt_le_weak|].
      intros Heq. rewrite Heq in Hl. by apply Qlt_irrefl in Hl.
    + split; [apply Qle_refl | done].
Qed.

Lemma groups_inv_nil refs : groups_inv refs [] [].
Proof.
  split_and!.
  - constructor.
  - intros k g. done.
  - intros f Hf. by apply elem_of_nil in Hf.
Qed.

(** Replacing (or adding) the entry of the key of [f] by [f] itself. *)
Lemma groups_inv_set refs seen groups f :
  groups_inv refs seen groups →
  matches_reference refs f →
  (∀ old, dict_get (canonical f) groups = Some old →
          (Clean.group_area old < get_area f)%Q) →
  groups_inv refs (seen ++ [f]) (dict_set (canonical f) (entry_of f) groups).
Proof.
  intros (Hnd & Hentries & Hseen) Hm Hold. split_and!.
  - by apply dict_set_NoDup.
  - intros k g. rewrite dict_get_set. case_decide as Hk.
    + intros [= <-]. simpl. split; [done|]. split; [done|].
      exists (length seen). apply best_candidate_new; [done|].
      intros j g Hj Hmg Hkg.
      destruct (Hseen g) as [old Hget]; [by eapply list_elem_of_lookup_2 | done |].
      rewrite Hkg in Hget.
      destruct (Hentries _ _ Hget) as (Hold_eq & _ & i & _ & _ & Hbest).
      specialize (Hold old Hget). rewrite Hold_eq in Hold. simpl in Hold.
      destruct (Hbest j g Hj Hmg) as [Hle _].
      { rewrite Hkg. by destruct (Hentries _ _ Hget) as (_ & <- & _). }
      by apply Qle_lt_trans with (get_area (Clean.group_feature old)).
    + intros Hget. destruct (Hentries _ _ Hget) as (Hg & Hkey & i & Hbest).
      split; [done|]. split; [done|]. exists i.
      apply best_candidate_snoc; [done|]. intros _ Hkf. congruence.
  - intros g Hg Hmg. rewrite dict_get_set. case_decide; [by eexists|].
    apply elem_of_app in Hg as [Hg| ->%list_elem_of_singleton]; [by apply Hseen | done].
Qed.

(** Leaving the dictionary as it is. *)
Lemma groups_inv_keep refs seen groups f :
  groups_inv refs seen groups →
  (matches_reference refs f →
     ∃ old, dict_get (canonical f) groups = Some old ∧
            (get_area f <= Clean.group_area old)%Q) →
  groups_inv refs (seen ++ [f]) groups.
Proof.
  intros (Hnd & Hentries & Hseen) Hkeep. split_and!; [done| |].
  - intros k g Hget. destruct (Hentries _ _ Hget) as (Hg & Hkey & i & Hbest).
    split; [done|]. split; [done|]. exists i.
    apply best_candidate_snoc; [done|]. intros Hm Hkf.
    destruct (Hkeep Hm) as (old & Hold & Hle).
    rewrite Hkf, <- Hkey, Hget in Hold. injection Hold as <-.
    by rewrite Hg in Hle.
  - intros g Hg Hmg.
    apply elem_of_app in Hg as [Hg| ->%list_elem_of_singleton]; [by apply Hseen|].
    destruct (Hkeep Hmg) as (old & Hold & _). by eexists.
Qed.

Lemma groups_inv_step refs seen groups f :
  groups_inv refs seen groups →
  groups_inv refs (seen ++ [f]) (Clean.group_step refs groups f).
Proof.
  intros Hinv. rewrite group_step_unfold.
  destruct (Clean.is_target_island f refs) eqn:Ht.
  - apply is_target_iff in Ht.
    destruct (dict_get (canonical f) groups) as [old|] eqn:Hget.
    + destruct (Qltb (Clean.group_area old) (get_area f)) eqn:Hlt.
      * apply groups_inv_set; [done | done |].
        intros old' Hold'. rewrite Hget in Hold'. injection Hold' as <-.
        by apply Qltb_true.
      * apply groups_inv_keep; [done|]. intros _. exists old. split; [done|].
        by apply Qltb_false.
    + apply groups_inv_set; [done | done |]. intros old Hold. congruence.
  - apply groups_inv_keep; [done|]. intros Hm. by apply is_target_false in Ht.
Qed.

Lemma groups_inv_fold refs features :
  ∀ seen groups,
    groups_inv refs seen groups →
    groups_inv refs (seen ++ features) (fold_left (Clean.group_step refs) features groups).
Proof.
  induction features as [|f features IH]; intros seen groups Hinv; simpl.
  - by rewrite app_nil_r.
  - rewrite cons_middle, app_assoc. apply IH. by apply groups_inv_step.
Qed.

Lemma island_groups_inv refs features :
  groups_inv refs features (fold_left (Clean.group_step refs) features []).
Proof. apply (groups_inv_fold refs features [] []), groups_inv_nil. Qed.

End Grouping.

(** ** The clean filter: annotation and ordering *)

Section Finishing.
Context `{PyStr}.
Implicit Types (refs : gset string) (f g o : Feature) (features out : list Feature).

Lemma annotate_Ok k (grp : Clean.Group) o :
  Clean.annotate (k, grp) = Ok o →
  get_name o = get_name (Clean.group_feature grp) ∧
  get_area o = get_area (Clean.group_feature grp) ∧
  declared_area o = declared_area (Clean.group_feature grp) ∧
  ∃ p, properties o = Some p ∧
       film_relevant p = Some true ∧
       normalized_name p = Some k ∧
       original_film_name p = Some (Clean.group_original_name grp).
Proof.
  unfold Clean.annotate, get_name, get_area, declared_area.
  destruct (properties (Clean.group_feature grp)) as [p|]; [|done].
  intros [= <-]. simpl. split_and!; try done. by eexists.
Qed.

Lemma annotate_canonical k grp o :
  Clean.annotate (k, grp) = Ok o → canonical o = canonical (Clean.group_feature grp).
Proof. intros (Hn & _)%annotate_Ok. unfold canonical. by rewrite Hn. Qed.

(** A feature that carries its own provenance is left as it is. *)
Lemma annotate_fixed o p :
  properties o = Some p →
  film_relevant p = Some true →
  normalized_name p = Some (canonical o) →
  original_film_name p = Some (strip (lower (get_name o))) →
  Clean.annotate (canonical o, entry_of o) = Ok o.
Proof.
  intros Hp Hr Hn Ho. unfold Clean.annotate. simpl. rewrite Hp.
  destruct o as [props geo], p as [n a r fr nn ofn m]. simpl in *.
  rewrite <- Hr, <- Hn, <- Ho. by subst.
Qed.

Lemma sort_key_Ok o a :
  Clean.sort_key o = Ok a ↔ declared_area o = Some a.
Proof.
  unfold Clean.sort_key, declared_area.
  destruct (properties o) as [p|]; simpl; [|done].
  destruct (area p); split; congruence.
Qed.

Lemma declared_get_area o a : declared_area o = Some a → get_area o = a.
Proof.
  unfold declared_area, get_area. destruct (properties o) as [p|]; simpl; [|done].
  by intros ->.
Qed.

Lemma area_ge_of_keys (l : list (Q * Feature)) :
  Forall (fun x => get_area x.2 = x.1) l →
  StronglySorted key_ge l → StronglySorted area_ge l.*2.
Proof.
  intros Hall Hs. induction Hs as [|x l Hs IH Hx]; simpl; [constructor|].
  apply Forall_cons in Hall as [Hx1 Hall].
  constructor; [by apply IH|].
  apply Forall_fmap. apply Forall_forall. intros y Hy. simpl.
  unfold area_ge. rewrite Hx1.
  rewrite (proj1 (Forall_forall _ _) Hall y Hy).
  apply Qltb_false. by apply (proj1 (Forall_forall _ _) Hx y Hy).
Qed.

Lemma sort_by_area_Ok (final out : list Feature) :
  Clean.sort_by_area final = Ok out →
  out ≡ₚ final ∧
  StronglySorted area_ge out ∧
  Forall (fun o => declared_area o = Some (get_area o)) out.
Proof.
  unfold Clean.sort_by_area.
  destruct (mapM Clean.sort_key final) as [keys|e] eqn:Hkeys; simpl; [|done].
  intros [= <-]. apply mapM_Ok in Hkeys.
  assert (Hlen : length final = length keys) by by eapply Forall2_length.
  assert (Hzip : Forall (fun x => declared_area x.2 = Some x.1) (zip keys final)).
  { clear Hlen. induction Hkeys as [|f a final keys Hfa _ IH]; simpl; [constructor|].
    constructor; [by apply sort_key_Ok | done]. }
  pose proof (sort_desc_perm (zip keys final)) as Hperm.
  rewrite <- Hperm in Hzip.
  split_and!.
  - rewrite Hperm. rewrite snd_zip by lia. done.
  - apply area_ge_of_keys.
    + eapply Forall_impl; [exact Hzip|]. intros x Hx. by apply declared_get_area.
    + apply Sorted_StronglySorted; [apply key_ge_trans | apply sort_desc_Sorted].
  - apply Forall_fmap. eapply Forall_impl; [exact Hzip|]. intros x Hx. simpl.
    by rewrite (declared_get_area _ _ Hx).
Qed.

(** A list that is in order, with every area declared, is its own sort. *)
Lemma sort_by_area_sorted out :
  StronglySorted area_ge out →
  Forall (fun o => declared_area o = Some (get_area o)) out →
  Clean.sort_by_area out = Ok out.
Proof.
  intros Hs Hall. unfold Clean.sort_by_area.
  assert (Hkeys : mapM Clean.sort_key out = Ok (get_area <$> out)).
  { apply mapM_Ok. apply Forall2_fmap_r. apply Forall_Forall2_diag.
    eapply Forall_impl; [exact Hall|]. intros o Ho. by apply sort_key_Ok. }
  rewrite Hkeys. simpl. f_equal.
  assert (Hzip : zip (get_area <$> out) out = (fun o => (get_area o, o)) <$> out).
  { clear. induction out as [|o out IH]; simpl; [done|]. f_equal. exact IH. }
  rewrite Hzip. rewrite sort_desc_sorted_id.
  - rewrite <- list_fmap_compose. apply list_fmap_id.
  - clear Hkeys Hzip Hall. apply StronglySorted_Sorted.
    induction Hs as [|o out Hs IH Ho]; simpl; [constructor|].
    constructor; [done|]. apply Forall_fmap.
    eapply Forall_impl; [exact Ho|]. intros o' Ho'. simpl.
    unfold key_ge. simpl. by apply Qltb_false.
Qed.

(** What [filter_features] returns, in terms of the grouping. *)
Lemma filter_features_Ok features refs out :
  Clean.filter_features features refs = Ok out →
  ∃ final,
    Forall2 (fun item o => Clean.annotate item = Ok o)
            (fold_left (Clean.group_step refs) features []) final ∧
    out ≡ₚ final ∧
    StronglySorted area_ge out ∧
    Forall (fun o => declared_area o = Some (get_area o)) out.
Proof.
  unfold Clean.filter_features.
  destruct (mapM Clean.annotate _) as [final|e] eqn:Hfinal; simpl; [|done].
  intros Hsort. apply mapM_Ok in Hfinal. apply sort_by_area_Ok in Hsort.
  exists final. by destruct Hsort as (? & ? & ?).
Qed.

End Finishing.

(** ** The clean filter: what is kept *)

Section CleanFilter.
Context `{PyStr}.
Implicit Types (refs : gset string) (f g o : Feature) (features out : list Feature).

(** Every output feature is the annotated copy of the best candidate of its
    key, and every key that has a candidate is represented. *)
Lemma output_elem features refs out o :
  Clean.filter_features features refs = Ok out →
  o ∈ out →
  ∃ i f, best_candidate refs features i f ∧
         Clean.annotate (canonical f, entry_of f) = Ok o.
Proof.
  intros (final & Hann & Hperm & _)%filter_features_Ok Ho.
  destruct (island_groups_inv refs features) as (Hnd & Hentries & _).
  rewrite Hperm in Ho. apply list_elem_of_lookup in Ho as [n Hn].
  destruct (Forall2_lookup_r _ _ _ _ _ Hann Hn) as ([k grp] & Hitem & Ha).
  apply list_elem_of_lookup_2 in Hitem.
  apply (dict_get_elem _ _ _ Hnd) in Hitem.
  destruct (Hentries _ _ Hitem) as (Hgrp & Hk & i & Hbest).
  exists i, (Clean.group_feature grp). split; [done|].
  by rewrite <- Hk, <- Hgrp.
Qed.

Lemma output_keys features refs out :
  Clean.filter_features features refs = Ok out →
  NoDup (canonical <$> out) ∧
  ∀ g, g ∈ features → matches_reference refs g → ∃ o, o ∈ out ∧ canonical o = canonical g.
Proof.
  intros (final & Hann & Hperm & _)%filter_features_Ok.
  destruct (island_groups_inv refs features) as (Hnd & Hentries & Hseen).
  set (groups := fold_left (Clean.group_step refs) features []) in *.
  assert (Hkeys : Forall2 (fun item o => canonical o = item.1) groups final).
  { apply Forall2_same_length_lookup. split; [by eapply Forall2_length|].
    intros n [k grp] o Hitem Ho.
    destruct (Forall2_lookup_l _ _ _ _ _ Hann Hitem) as (o' & Ho' & Ha).
    rewrite Ho in Ho'. injection Ho' as <-. simpl.
    apply list_elem_of_lookup_2 in Hitem. apply (dict_get_elem _ _ _ Hnd) in Hitem.
    destruct (Hentries _ _ Hitem) as (_ & -> & _). by eapply annotate_canonical. }
  split.
  - rewrite Hperm.
    assert (Heq : canonical <$> final = groups.*1).
    { clear -Hkeys. induction Hkeys as [|item o groups final Hk _ IH]; simpl; [done|].
      f_equal; [done | exact IH]. }
    by rewrite Heq.
  - intros g Hg Hm. destruct (Hseen g Hg Hm) as [grp Hget].
    apply dict_get_Some_elem, list_elem_of_lookup in Hget as [n Hn].
    destruct (Forall2_lookup_l _ _ _ _ _ Hkeys Hn) as (o & Ho & Hk).
    exists o. split; [|done]. rewrite Hperm. by eapply list_elem_of_lookup_2.
Qed.

(** C1. When the clean filter returns, its output holds at most one feature
    per canonical key; each output feature is the annotated copy of an input
    feature that matches a reference and is the best candidate of its key: no
    candidate for the same key has a larger area, and none with the same area
    stands before it in the input; and every key with a candidate has its
    feature in the output. *)
Theorem one_feature_per_key features refs out :
  Clean.filter_features features refs = Ok out →
  NoDup (canonical <$> out) ∧
  (∀ o, o ∈ out →
     ∃ i f, best_candidate refs features i f ∧
            Clean.annotate (canonical f, entry_of f) = Ok o ∧
            canonical o = canonical f) ∧
  (∀ g, g ∈ features → matches_reference refs g →
     ∃ o, o ∈ out ∧ canonical o = canonical g).
Proof.
  intros Hout. destruct (output_keys _ _ _ Hout) as [Hnd Hall].
  split; [done|]. split; [|done].
  intros o Ho. destruct (output_elem _ _ _ _ Hout Ho) as (i & f & Hbest & Ha).
  exists i, f. split; [done|]. split; [done|]. by apply annotate_canonical in Ha.
Qed.

(** C7. When the clean filter returns, its output is in descending order of
    area, and the area every output feature is compared by is the one it
    declares; the only way it does not return is that an input feature that
    matches a reference declares no area (the [KeyError] of the sort key or
    of [feature['properties']]). *)
Theorem output_sorted_by_area features refs :
  match Clean.filter_features features refs with
  | Ok out =>
      StronglySorted area_ge out ∧
      Forall (fun o => declared_area o = Some (get_area o)) out
  | Raise e =>
      ∃ f, f ∈ features ∧ matches_reference refs f ∧ declared_area f = None
  end.
Proof.
  destruct (Clean.filter_features features refs) as [out|e] eqn:Hout.
  - apply filter_features_Ok in Hout as (final & _ & _ & Hs & Hall). done.
  - destruct (island_groups_inv refs features) as (Hnd & Hentries & _).
    unfold Clean.filter_features in Hout.
    set (groups := fold_left (Clean.group_step refs) features []) in *.
    assert (Hgroups : ∀ k grp, (k, grp) ∈ groups →
              Clean.group_feature grp ∈ features ∧
              matches_reference refs (Clean.group_feature grp)).
    { intros k grp Hin. apply (dict_get_elem _ _ _ Hnd) in Hin.
      destruct (Hentries _ _ Hin) as (_ & _ & i & Hi & Hm & _).
      split; [by eapply list_elem_of_lookup_2 | done]. }
    clearbody groups. revert e Hout.
    assert (Hstep : ∀ final,
              Forall2 (fun item o => Clean.annotate item = Ok o) groups final →
              ∀ e, Clean.sort_by_area final = Raise e →
              ∃ f, f ∈ features ∧ matches_reference refs f ∧ declared_area f = None).
    { intros final Hann e. unfold Clean.sort_by_area.
      destruct (mapM Clean.sort_key final) as [keys|e'] eqn:Hkeys; simpl; [done|].
      intros _. clear e.
      assert (Hbad : ∃ o, o ∈ final ∧ declared_area o = None).
      { clear Hann. revert e' Hkeys. induction final as [|o final IH]; simpl; [done|].
        intros e'. destruct (Clean.sort_key o) as [a|e0] eqn:Ho; simpl.
        - destruct (mapM Clean.sort_key final) as [ks|e1] eqn:Hf; simpl; [done|].
          intros _. destruct (IH e1 eq_refl) as (o' & Ho' & Hn).
          exists o'. split; [by right | done].
        - intros _. exists o. split; [by left|].
          destruct (declared_area o) as [a|] eqn:Hd; [|done].
          apply sort_key_Ok in Hd. congruence. }
      destruct Hbad as (o & Ho & Hnone).
      apply list_elem_of_lookup in Ho as [n Hn].
      destruct (Forall2_lookup_r _ _ _ _ _ Hann Hn) as ([k grp] & Hitem & Ha).
      apply list_elem_of_lookup_2 in Hitem. destruct (Hgroups _ _ Hitem) as [Hin Hm].
      exists (Clean.group_feature grp). split; [done|]. split; [done|].
      apply annotate_Ok in Ha as (_ & _ & Hd & _). by rewrite <- Hd. }
    intros e.
    destruct (mapM Clean.annotate groups) as [final|e'] eqn:Hfinal; simpl.
    + apply Hstep. by apply mapM_Ok.
    + intros _. clear Hstep.
      assert (Hbad : ∃ item, item ∈ groups ∧ properties (Clean.group_feature item.2) = None).
      { clear Hgroups Hnd Hentries. revert e' Hfinal.
        induction groups as [|[k grp] groups IH]; simpl; [done|].
        intros e'. destruct (properties (Clean.group_feature grp)) as [p|] eqn:Hp; simpl.
        - destruct (mapM Clean.annotate groups) as [fs|e1] eqn:Hf; simpl; [done|].
          intros _. destruct (IH e1 eq_refl) as (item & Hitem & Hn).
          exists item. split; [by right | done].
        - intros _. exists (k, grp). split; [by left | done]. }
      destruct Hbad as ([k grp] & Hitem & Hnone). simpl in Hnone.
      destruct (Hgroups _ _ Hitem) as [Hin Hm].
      exists (Clean.group_feature grp). split; [done|]. split; [done|].
      unfold declared_area. by rewrite Hnone.
Qed.

(** On features with pairwise distinct keys that all match, the loop files
    each one under its key, in order. *)
Lemma group_step_distinct refs out :
  ∀ groups,
    Forall (matches_reference refs) out →
    NoDup (groups.*1 ++ (canonical <$> out)) →
    fold_left (Clean.group_step refs) out groups =
      groups ++ ((fun o => (canonical o, entry_of o)) <$> out).
Proof.
  induction out as [|o out IH]; intros groups Hall Hnd; simpl.
  - by rewrite app_nil_r.
  - apply Forall_cons in Hall as [Hm Hall].
    rewrite group_step_unfold. rewrite (proj2 (is_target_iff o refs) Hm).
    assert (Hnone : dict_get (canonical o) groups = None).
    { apply dict_get_None. intros Hin. apply NoDup_app in Hnd as (_ & Hdisj & _).
      apply (Hdisj _ Hin). simpl. left. }
    rewrite Hnone, dict_set_new by done.
    rewrite IH; [by rewrite <- app_assoc | done |].
    rewrite fmap_app, <- app_assoc. exact Hnd.
Qed.

(** C6. Running the clean filter on its own output, with the same
    references, returns that output again: the same features, in the same
    order. *)
Theorem filter_idempotent features refs out :
  Clean.filter_features features refs = Ok out →
  Clean.filter_features out refs = Ok out.
Proof.
  intros Hout.
  assert (Hfix : Forall (fun o => matches_reference refs o ∧
                                  Clean.annotate (canonical o, entry_of o) = Ok o) out).
  { apply Forall_forall. intros o Ho.
    destruct (output_elem _ _ _ _ Hout Ho) as (i & f & (_ & Hm & _) & Ha).
    pose proof (annotate_canonical _ _ _ Ha) as Hk. simpl in Hk.
    destruct (annotate_Ok _ _ _ Ha) as (Hn & _ & _ & p & Hp & Hr & Hnn & Hon).
    simpl in Hn, Hon. split.
    - destruct Hm as (t & Ht & Heq). exists t. split; [done|]. by rewrite Hk.
    - apply (annotate_fixed o p); [done | done | by rewrite Hk | by rewrite Hn]. }
  destruct (output_keys _ _ _ Hout) as [Hnd _].
  apply filter_features_Ok in Hout as (_ & _ & _ & Hs & Hall).
  unfold Clean.filter_features.
  rewrite (group_step_distinct refs out []); simpl.
  - assert (Hann : mapM Clean.annotate ((fun o => (canonical o, entry_of o)) <$> out) = Ok out).
    { apply mapM_Ok. apply Forall2_fmap_l. apply Forall_Forall2_diag.
      eapply Forall_impl; [exact Hfix|]. by intros o [_ Ho]. }
    rewrite Hann. simpl. by apply sort_by_area_sorted.
  - eapply Forall_impl; [exact Hfix|]. by intros o [Ho _].
  - exact Hnd.
Qed.

End CleanFilter.

(** ** Why a feature is in the output *)

Section Inclusion.
Context `{PyStr}.
Implicit Types (refs : gset string) (f g o : Feature) (features out : list Feature).

Lemma mark_Ok refs f o :
  Film.mark refs f = Ok o → get_name o = get_name f.
Proof.
  unfold Film.mark, get_name. destruct (properties f) as [p|]; simpl; [|done].
  destruct (bool_decide (refs = ∅)); simpl.
  - by intros [= <-].
  - destruct (name p); simpl; [|done]. by intros [= <-].
Qed.

Lemma mentioned_iff refs f :
  Film.mentioned refs (film_canonical f) = true ↔ film_matches_reference refs f.
Proof. unfold Film.mentioned. rewrite bool_decide_eq_true. reflexivity. Qed.

Lemma relevant_islands_elem features refs out o :
  Film.relevant_islands features refs = Ok out →
  o ∈ out →
  ∃ f, f ∈ features ∧
       Film.is_relevant_island f refs Film.key_islands = true ∧
       Film.mark refs f = Ok o.
Proof.
  unfold Film.relevant_islands. intros Hout%mapM_Ok Ho.
  apply list_elem_of_lookup in Ho as [n Hn].
  destruct (Forall2_lookup_r _ _ _ _ _ Hout Hn) as (f & Hf & Hmark).
  apply list_elem_of_lookup_2, list_elem_of_filter in Hf as [Hrel Hin].
  by exists f.
Qed.

(** C2, as the code has it.  In the output of the clean filter every feature
    has a normalised name equal to the normalised form of a reference, and
    that name is what its [normalized_name] property records.  In the output
    of the filter of create-film-islands.py a feature either has such a
    normalised name or its name and the name of a key Pacific island contain
    one another. *)
Theorem output_matches_reference features refs out o :
  (Clean.filter_features features refs = Ok out → o ∈ out →
     matches_reference refs o ∧
     ∃ p, properties o = Some p ∧ normalized_name p = Some (canonical o)) ∧
  (Film.relevant_islands features refs = Ok out → o ∈ out →
     film_matches_reference refs o ∨
     Film.is_key_island (strip (lower (get_name o))) Film.key_islands = true).
Proof.
  split.
  - intros Hout Ho.
    destruct (output_elem _ _ _ _ Hout Ho) as (i & f & (_ & Hm & _) & Ha).
    pose proof (annotate_canonical _ _ _ Ha) as Hk. simpl in Hk.
    destruct (annotate_Ok _ _ _ Ha) as (_ & _ & _ & p & Hp & _ & Hnn & _).
    split.
    + destruct Hm as (t & Ht & Heq). exists t. split; [done|]. by rewrite Hk.
    + exists p. split; [done|]. by rewrite Hk.
  - intros Hout Ho.
    destruct (relevant_islands_elem _ _ _ _ Hout Ho) as (f & _ & Hrel & Hmark).
    apply mark_Ok in Hmark. unfold Film.is_relevant_island in Hrel.
    apply orb_true_iff in Hrel as [Hmen|Hkey].
    + left. apply mentioned_iff in Hmen.
      destruct Hmen as (t & Ht & Heq). exists t. split; [done|].
      unfold film_canonical in *. by rewrite Hmark.
    + right. by rewrite Hmark.
Qed.

(** The key the filters file a feature under is the normalised form of its
    name as it stands, since lowercasing and trimming twice is the same as
    doing it once. *)
Lemma canonical_is_normalized_name f :
  (∀ s, strip (lower (strip (lower s))) = strip (lower s)) →
  canonical f = Clean.normalize_island_name (get_name f) ∧
  film_canonical f = Film.normalize_island_name (get_name f).
Proof.
  intros Hidem.
  unfold canonical, film_canonical, Clean.normalize_island_name, Film.normalize_island_name.
  by rewrite Hidem.
Qed.

End Inclusion.

(** The ASCII instance lowercases and trims idempotently. *)
Lemma lower_ascii_idem (c : ascii) : lower_ascii (lower_ascii c) = lower_ascii c.
Proof. destruct c as [[] [] [] [] [] [] [] []]; reflexivity. Qed.

Lemma is_space_lower (c : ascii) : is_space (lower_ascii c) = is_space c.
Proof. destruct c as [[] [] [] [] [] [] [] []]; reflexivity. Qed.

Lemma lstrip_lower (s : string) :
  lstrip (str_map lower_ascii s) = str_map lower_ascii (lstrip s).
Proof.
  induction s as [|c s IH]; simpl; [done|].
  rewrite is_space_lower. by destruct (is_space c).
Qed.

Lemma rstrip_lower (s : string) :
  rstrip (str_map lower_ascii s) = str_map lower_ascii (rstrip s).
Proof.
  induction s as [|c s IH]; simpl; [done|].
  rewrite IH, is_space_lower.
  destruct (rstrip s); simpl; [by destruct (is_space c) | done].
Qed.

Lemma str_map_lower_idem (s : string) :
  str_map lower_ascii (str_map lower_ascii s) = str_map lower_ascii s.
Proof. induction s as [|c s IH]; simpl; [done|]. by rewrite lower_ascii_idem, IH. Qed.

Lemma rstrip_idem (s : string) : rstrip (rstrip s) = rstrip s.
Proof.
  induction s as [|c s IH]; simpl; [done|].
  destruct (rstrip s) as [|c' r] eqn:Hr.
  - destruct (is_space c) eqn:Hc; simpl; [done|]. by rewrite Hc.
  - simpl in *. by rewrite IH.
Qed.

(** A string without leading blank keeps none when trimmed on the right. *)
Lemma lstrip_rstrip (s : string) : lstrip s = s → lstrip (rstrip s) = rstrip s.
Proof.
  destruct s as [|c s]; simpl; [done|].
  destruct (is_space c) eqn:Hc.
  - intros Heq. exfalso.
    assert (Hlen : ∀ t, (String.length (lstrip t) ≤ String.length t)%nat).
    { clear. induction t as [|c t IH]; simpl; [lia|].
      destruct (is_space c); simpl; lia. }
    specialize (Hlen s). rewrite Heq in Hlen. simpl in Hlen. lia.
  - intros _. destruct (rstrip s); simpl; by rewrite Hc.
Qed.

Lemma lstrip_idem (s : string) : lstrip (lstrip s) = lstrip s.
Proof.
  induction s as [|c s IH]; simpl; [done|].
  destruct (is_space c) eqn:Hc; [done|]. simpl. by rewrite Hc.
Qed.

Lemma ascii_strip_lower_idem (s : string) :
  strip (lower (strip (lower s))) = strip (lower s).
Proof.
  simpl. rewrite <- rstrip_lower, <- lstrip_lower, str_map_lower_idem.
  rewrite (lstrip_rstrip (lstrip _)) by apply lstrip_idem.
  apply rstrip_idem.
Qed.

(** ** The statements on concrete inputs *)

(** A collection with the single feature "Fiji" and no reference at all:
    create-film-islands.py keeps the feature, as a key Pacific island. *)
Lemma film_filter_keeps_key_islands : ¬ film_output_matches_only.
Proof.
  intros Hclaim.
  destruct (Hclaim [fiji] ∅ [fiji_marked] fiji_marked) as (t & Ht & _).
  - by vm_compute.
  - by left.
  - by apply not_elem_of_empty in Ht.
Qed.

Lemma example_output_computed :
  Clean.filter_features example_features example_refs = Ok example_output.
Proof. by vm_compute. Qed.

Lemma output_matches_reference_example :
  (Clean.filter_features example_features example_refs = Ok example_output ∧
   oahu_kept ∈ example_output ∧
   matches_reference example_refs oahu_kept ∧
   ∃ p, properties oahu_kept = Some p ∧ normalized_name p = Some (canonical oahu_kept)) ∧
  (Film.relevant_islands [fiji] ∅ = Ok [fiji_marked] ∧
   fiji_marked ∈ [fiji_marked] ∧
   (film_matches_reference ∅ fiji_marked ∨
    Film.is_key_island (strip (lower (get_name fiji_marked))) Film.key_islands = true)).
Proof.
  split.
  - split; [by vm_compute|]. split; [by left|].
    apply (output_matches_reference example_features example_refs example_output oahu_kept);
      [by vm_compute | by left].
  - split; [by vm_compute|]. split; [by left|].
    apply (output_matches_reference [fiji] ∅ [fiji_marked] fiji_marked);
      [by vm_compute | by left].
Defined.

Lemma one_feature_per_key_example :
  Clean.filter_features example_features example_refs = Ok example_output ∧
  NoDup (canonical <$> example_output) ∧
  (∀ o, o ∈ example_output →
     ∃ i f, best_candidate example_refs example_features i f ∧
            Clean.annotate (canonical f, entry_of f) = Ok o ∧
            canonical o = canonical f) ∧
  (∀ g, g ∈ example_features → matches_reference example_refs g →
     ∃ o, o ∈ example_output ∧ canonical o = canonical g).
Proof.
  split; [by vm_compute|].
  apply (one_feature_per_key example_features example_refs example_output).
  by vm_compute.
Defined.

Lemma filter_idempotent_example :
  Clean.filter_features example_features example_refs = Ok example_output ∧
  Clean.filter_features example_output example_refs = Ok example_output.
Proof.
  split; [by vm_compute|].
  apply (filter_idempotent example_features example_refs example_output).
  by vm_compute.
Defined.

(** * Further properties of the scripts *)

(** ** create-clean-film-islands.py *)

Section CleanScript.
Context `{PyStr}.
Implicit Types (refs : gset string) (f g o : Feature) (features out : list Feature).

Lemma add_film_spec (films : list Film) :
  ∀ (acc : gset string) t,
    t ∈ fold_left Clean.add_film films acc ↔ t ∈ acc ∨ names_island films t.
Proof.
  induction films as [|film films IH]; intros acc t; simpl.
  - split; [by left|]. intros [?|(film & raw & Hin & _)]; [done|].
    by apply elem_of_nil in Hin.
  - rewrite IH. unfold Clean.add_film, names_island. split.
    + intros [Hacc|(film' & raw & Hin & Hrest)].
      * destruct (island film) as [raw|] eqn:Hisl; [|by left].
        case_bool_decide as Hraw; [by left|].
        case_bool_decide as Hstrip; [by left|].
        apply elem_of_union in Hacc as [?| ->%elem_of_singleton]; [by left|].
        right. exists film, raw. split; [left|]. done.
      * right. exists film', raw. split; [by right | done].
    + intros [Hacc|(film' & raw & Hin & Hisl & Hraw & Hstrip & Ht)].
      * left. destruct (island film); [|done].
        repeat case_bool_decide; try done. apply elem_of_union. by left.
      * apply elem_of_cons in Hin as [->|Hin].
        -- left. rewrite Hisl. rewrite bool_decide_false by done.
           rewrite bool_decide_false by congruence.
           apply elem_of_union. right. by apply elem_of_singleton.
        -- right. by exists film', raw.
Qed.

Lemma get_film_islands_spec (films : list Film) :
  ∃ islands,
    Clean.get_film_islands (Parsed films) = Ok islands ∧
    ∀ t, t ∈ islands ↔ names_island films t.
Proof.
  eexists. split; [reflexivity|]. intros t. rewrite add_film_spec.
  split; [|by right]. intros [Hin|?]; [|done]. by apply not_elem_of_empty in Hin.
Qed.

(** X1. From a readable film file [get_film_islands] returns exactly the
    non-empty trimmed island names of the films whose ['island'] is present
    and not empty. *)
Theorem film_islands_are_trimmed_names (films : list Film) :
  ∃ islands,
    Clean.get_film_islands (Parsed films) = Ok islands ∧
    ∀ t, t ∈ islands ↔ names_island films t.
Proof. apply get_film_islands_spec. Qed.

Lemma annotate_kept_copy f o :
  Clean.annotate (canonical f, entry_of f) = Ok o → kept_copy f o.
Proof.
  unfold Clean.annotate, kept_copy. simpl.
  destruct (properties f) as [p|] eqn:Hp; [|done].
  intros [= <-]. simpl. split; [done|]. exists p. eexists. split; [done|].
  split; [done|]. simpl. done.
Qed.

(** X2. Every feature the clean filter writes is a copy of an input feature
    with its geometry, name, area and region untouched, to which the filter
    has added [film_relevant = true], the canonical key as [normalized_name]
    and the lowercased, trimmed name as [original_film_name]. *)
Theorem output_is_annotated_input features refs out o :
  Clean.filter_features features refs = Ok out →
  o ∈ out →
  ∃ f, f ∈ features ∧ kept_copy f o.
Proof.
  intros Hout Ho.
  destruct (output_elem _ _ _ _ Hout Ho) as (i & f & (Hi & _) & Ha).
  exists f. split; [by eapply list_elem_of_lookup_2 | by apply annotate_kept_copy].
Qed.

Lemma dict_set_length {V} (k : string) (v : V) (d : list (string * V)) :
  (length (dict_set k v d) ≤ S (length d))%nat.
Proof.
  induction d as [|[k0 v0] d IH]; simpl; [lia|].
  case_bool_decide; simpl; lia.
Qed.

Lemma group_step_length refs features :
  ∀ groups,
    (length (fold_left (Clean.group_step refs) features groups)
     ≤ length groups + length features)%nat.
Proof.
  induction features as [|f features IH]; intros groups; simpl; [lia|].
  etrans; [apply IH|].
  assert (length (Clean.group_step refs groups f) ≤ S (length groups))%nat; [|lia].
  rewrite group_step_unfold.
  destruct (Clean.is_target_island f refs); [|lia].
  destruct (dict_get _ _) as [old|].
  - destruct (Qltb _ _); [apply dict_set_length | lia].
  - apply dict_set_length.
Qed.

(** X3. The clean filter writes at most one feature per reference string and
    at most as many features as it was given. *)
Theorem output_size_bounded features refs out :
  Clean.filter_features features refs = Ok out →
  (length out ≤ size refs)%nat ∧ (length out ≤ length features)%nat.
Proof.
  intros Hout. split.
  - destruct (output_keys _ _ _ Hout) as [Hnd _].
    assert (Hsub : canonical <$> out ⊆+ Clean.normalize_island_name <$> elements refs).
    { apply NoDup_submseteq; [done|]. intros k Hk.
      apply list_elem_of_fmap in Hk as (o & -> & Ho).
      destruct (output_elem _ _ _ _ Hout Ho) as (i & f & (_ & (t & Ht & Heq) & _) & Ha).
      apply annotate_canonical in Ha. simpl in Ha. rewrite Ha, <- Heq.
      apply list_elem_of_fmap. exists t. split; [done|]. by apply elem_of_elements. }
    apply submseteq_length in Hsub. by rewrite !length_fmap in Hsub.
  - apply filter_features_Ok in Hout as (final & Hann & Hperm & _).
    rewrite Hperm. apply Forall2_length in Hann. rewrite <- Hann.
    etrans; [apply group_step_length|]. simpl. lia.
Qed.

End CleanScript.

Lemma output_is_annotated_input_example :
  Clean.filter_features example_features example_refs = Ok example_output ∧
  oahu_kept ∈ example_output ∧
  ∃ f, f ∈ example_features ∧ kept_copy f oahu_kept.
Proof.
  split; [by vm_compute|]. split; [by left|].
  apply (output_is_annotated_input example_features example_refs example_output oahu_kept);
    [by vm_compute | by left].
Defined.

Lemma output_size_bounded_example :
  Clean.filter_features example_features example_refs = Ok example_output ∧
  (length example_output ≤ size example_refs)%nat ∧
  (length example_output ≤ length example_features)%nat.
Proof.
  split; [by vm_compute|].
  apply (output_size_bounded example_features example_refs example_output).
  by vm_compute.
Defined.

(** ** Features without a name *)

Lemma mapM_Raise {A B} (f : A → result B) (l : list A) (e : Exn) :
  mapM f l = Raise e → ∃ x, x ∈ l ∧ f x = Raise e.
Proof.
  induction l as [|x l IH]; simpl; [done|].
  destruct (f x) as [y|e0] eqn:Hx; simpl.
  - destruct (mapM f l) as [ys|e1]; simpl; [done|].
    intros [= <-]. destruct (IH eq_refl) as (x' & Hin & Hx').
    exists x'. split; [by right | done].
  - intros [= <-]. exists x. split; [by left | done].
Qed.

Lemma clean_table_values_not_empty :
  Forall (fun v => v ≠ "") Clean.name_mappings_literal.*2.
Proof. apply (bool_decide_unpack _). by vm_compute. Qed.

Lemma clean_table_no_empty_key : dict_get "" Clean.name_mappings_literal = None.
Proof. reflexivity. Qed.

Section Unnamed.
Context `{PyStr}.
Implicit Types (refs islands : gset string) (f g o : Feature) (features out : list Feature).

Lemma normalize_not_empty (s : string) :
  strip (lower s) ≠ "" → Clean.normalize_island_name s ≠ "".
Proof.
  intros Hne. rewrite clean_normalize_spec. unfold spec_normalize, substitute.
  destruct (dict_get _ _) as [v|] eqn:Hget; [|done].
  apply dict_get_Some_elem in Hget.
  pose proof clean_table_values_not_empty as Hall.
  rewrite Forall_forall in Hall. apply Hall.
  apply list_elem_of_fmap. by exists (strip (lower s), v).
Qed.

Lemma normalize_blank (s : string) :
  strip (lower "") = "" → strip (lower s) = "" →
  Clean.normalize_island_name (strip (lower s)) = "".
Proof.
  intros Hempty Hs. rewrite Hs, clean_normalize_spec.
  unfold spec_normalize, substitute. by rewrite Hempty, clean_table_no_empty_key.
Qed.

Lemma film_islands_not_blank (file : File (list Film)) islands :
  keeps_text →
  Clean.get_film_islands file = Ok islands →
  ∀ t, t ∈ islands → Clean.normalize_island_name t ≠ "".
Proof.
  intros [_ Hkeep] Hget t Ht. destruct file as [| |films].
  - injection Hget as <-. by apply not_elem_of_empty in Ht.
  - injection Hget as <-. by apply not_elem_of_empty in Ht.
  - destruct (get_film_islands_spec films) as (islands' & Hget' & Hspec).
    rewrite Hget in Hget'. injection Hget' as <-.
    apply Hspec in Ht as (film & raw & _ & _ & _ & <- & Hne).
    apply normalize_not_empty. by apply Hkeep.
Qed.

Lemma blank_not_target (file : File (list Film)) islands f :
  keeps_text →
  Clean.get_film_islands file = Ok islands →
  blank_name f →
  Clean.is_target_island f islands = false.
Proof.
  intros Hkt Hget Hblank. apply not_true_iff_false. intros Ht.
  apply is_target_iff in Ht as (t & Ht & Heq).
  apply (film_islands_not_blank file islands Hkt Hget t Ht).
  rewrite Heq. unfold canonical. apply normalize_blank; [apply Hkt | done].
Qed.

(** X4. With the film islands that [get_film_islands] returns, a feature
    whose name is missing or blank (its [properties] may be missing
    altogether) is never a target island. *)
Theorem unnamed_feature_is_no_target (file : File (list Film)) islands f :
  keeps_text →
  Clean.get_film_islands file = Ok islands →
  blank_name f →
  Clean.is_target_island f islands = false.
Proof. apply blank_not_target. Qed.

Lemma target_has_name (file : File (list Film)) islands f :
  keeps_text →
  Clean.get_film_islands file = Ok islands →
  matches_reference islands f →
  ∃ p n, properties f = Some p ∧ name p = Some n.
Proof.
  intros Hkt Hget Hm.
  assert (Hnb : ¬ blank_name f).
  { intros Hb. apply (blank_not_target file islands f Hkt Hget) in Hb.
    apply is_target_iff in Hm. congruence. }
  unfold blank_name, get_name in Hnb.
  destruct (properties f) as [p|]; [|by destruct Hkt].
  destruct (name p) as [n|] eqn:Hn; [|by destruct Hkt].
  exists p, n. done.
Qed.

Lemma print_line_spec o q a on :
  properties o = Some q → name q = Some on → area q = Some a →
  is_Some (original_film_name q) →
  Clean.print_line o =
    match declared_region o with
    | Some _ => Ok ()
    | None => Raise (KeyError "region")
    end.
Proof.
  intros Hq Hn Ha [ofn Hofn]. unfold Clean.print_line, declared_region.
  rewrite Hq. simpl. rewrite Hn. simpl. rewrite Ha. simpl.
  destruct (region q); simpl; [|done]. by rewrite Hofn.
Qed.

Lemma print_final_spec (out : list Feature) :
  (∀ o, o ∈ out → Clean.print_line o =
      match declared_region o with
      | Some _ => Ok ()
      | None => Raise (KeyError "region")
      end) →
  (Forall (fun o => is_Some (declared_region o)) out ∧ Clean.print_final out = Ok ()) ∨
  (Exists (fun o => declared_region o = None) out ∧
   Clean.print_final out = Raise (KeyError "region")).
Proof.
  unfold Clean.print_final. induction out as [|o out IH]; intros Hline.
  - left. split; [constructor | done].
  - simpl. rewrite (Hline o) by left.
    destruct (declared_region o) as [r|] eqn:Hr; simpl.
    + destruct IH as [[Hall Hok]|[Hex Hraise]].
      * intros o' Ho'. apply Hline. by right.
      * left. split; [constructor; [by eexists | done]|].
        by destruct (mapM Clean.print_line out).
      * right. split; [by apply Exists_cons_tl|].
        by destruct (mapM Clean.print_line out).
    + right. split; [by apply Exists_cons_hd | done].
Qed.

(** X5. Run on a readable feature collection, the clean script ends in one
    of three ways only.  A feature it selected declares no area: it stops
    with [KeyError('area')] before writing anything.  Otherwise it writes its
    output file, and then either every feature it wrote declares a region
    and it returns the file's name, or one of them declares none and it stops
    with [KeyError('region')], the file already written.  A missing name or
    a missing [properties] object never makes it fail. *)
Theorem clean_script_endings (features : list Feature) (film_file : File (list Film)) :
  keeps_text →
  match Clean.create_clean_film_islands (Parsed features) film_file with
  | (Some out, ending) =>
      (Forall (fun o => is_Some (declared_region o)) out ∧
       ending = Ok (Some Clean.output_file)) ∨
      (Exists (fun o => declared_region o = None) out ∧
       ending = Raise (KeyError "region"))
  | (None, ending) => ending = Raise (KeyError "area")
  end.
Proof.
  intros Hkt. unfold Clean.create_clean_film_islands. simpl.
  assert (Hislands : ∃ islands, Clean.get_film_islands film_file = Ok islands).
  { destruct film_file; by eexists. }
  destruct Hislands as [islands Hget]. rewrite Hget. simpl.
  destruct (island_groups_inv islands features) as (Hnd & Hentries & _).
  assert (Hnamed : ∀ item, item ∈ fold_left (Clean.group_step islands) features [] →
            ∃ p n, properties (Clean.group_feature item.2) = Some p ∧ name p = Some n).
  { intros [k grp] Hin. apply (dict_get_elem _ _ _ Hnd) in Hin.
    destruct (Hentries _ _ Hin) as (_ & _ & i & _ & Hm & _).
    by apply (target_has_name film_file islands). }
  unfold Clean.filter_features.
  destruct (mapM Clean.annotate _) as [final|e] eqn:Hfinal; simpl.
  - apply mapM_Ok in Hfinal.
    assert (Hfinal_named : ∀ o, o ∈ final →
              ∃ q n, properties o = Some q ∧ name q = Some n ∧
                     is_Some (original_film_name q)).
    { intros o Ho. apply list_elem_of_lookup in Ho as [i Hi].
      destruct (Forall2_lookup_r _ _ _ _ _ Hfinal Hi) as ([k grp] & Hitem & Ha).
      apply list_elem_of_lookup_2 in Hitem.
      destruct (Hnamed _ Hitem) as (p & n & Hp & Hn). simpl in Hp.
      unfold Clean.annotate in Ha. rewrite Hp in Ha. injection Ha as <-.
      simpl. by eauto 6. }
    destruct (Clean.sort_by_area final) as [out|e] eqn:Hsort.
    + apply sort_by_area_Ok in Hsort as (Hperm & _ & Hareas).
      destruct (print_final_spec out) as [[Hall ->]|[Hex ->]]; [|by left|by right].
      intros o Ho. rewrite Forall_forall in Hareas. specialize (Hareas o Ho).
      rewrite Hperm in Ho. destruct (Hfinal_named o Ho) as (q & n & Hq & Hn & Hofn).
      unfold declared_area in Hareas. rewrite Hq in Hareas. simpl in Hareas.
      by apply (print_line_spec o q (get_area o) n).
    + unfold Clean.sort_by_area in Hsort.
      destruct (mapM Clean.sort_key final) as [keys|e'] eqn:Hkeys; simpl in Hsort; [done|].
      injection Hsort as <-.
      apply mapM_Raise in Hkeys as (o & Ho & Hraise).
      destruct (Hfinal_named o Ho) as (q & n & Hq & _).
      unfold Clean.sort_key in Hraise. rewrite Hq in Hraise.
      destruct (area q); [done|]. by injection Hraise as <-.
  - exfalso. apply mapM_Raise in Hfinal as ([k grp] & Hin & Hraise).
    destruct (Hnamed _ Hin) as (p & n & Hp & _). simpl in Hp.
    unfold Clean.annotate in Hraise. by rewrite Hp in Hraise.
Qed.

(** ** create-film-islands.py *)

Lemma str_in_empty (b : string) : str_in "" b = true.
Proof. by destruct b. Qed.

Lemma blank_is_relevant f refs :
  blank_name f →
  Film.is_relevant_island f refs Film.key_islands = true.
Proof.
  intros Hblank. unfold Film.is_relevant_island. rewrite Hblank.
  apply orb_true_iff. right. unfold Film.is_key_island, Film.key_islands.
  simpl. rewrite str_in_empty. by rewrite orb_true_r.
Qed.

(** X6. A feature whose name is missing or blank is always relevant for
    create-film-islands.py: the empty string is contained in the name of
    every key island. *)
Theorem blank_name_is_relevant f refs :
  blank_name f →
  Film.is_relevant_island f refs Film.key_islands = true.
Proof. apply blank_is_relevant. Qed.

(** X7. Hence a single feature without a [properties] object, anywhere in
    the collection, makes create-film-islands.py fail: it is selected, and
    reading [feature['properties']] raises. *)
Theorem film_filter_needs_properties features refs f :
  strip (lower "") = "" →
  f ∈ features →
  properties f = None →
  ∃ e, Film.relevant_islands features refs = Raise e.
Proof.
  intros Hempty Hin Hnone.
  destruct (Film.relevant_islands features refs) as [out|e] eqn:Hout; [|by eexists].
  exfalso. unfold Film.relevant_islands in Hout. apply mapM_Ok in Hout.
  assert (Hsel : f ∈ filter
            (fun feature => Film.is_relevant_island feature refs Film.key_islands = true)
            features).
  { apply list_elem_of_filter. split; [|done]. apply blank_is_relevant.
    unfold blank_name, get_name. by rewrite Hnone. }
  apply list_elem_of_lookup in Hsel as [i Hi].
  destruct (Forall2_lookup_l _ _ _ _ _ Hout Hi) as (o & _ & Hmark).
  unfold Film.mark in Hmark. by rewrite Hnone in Hmark.
Qed.

Lemma mentioned_empty (k : string) : Film.mentioned ∅ k = false.
Proof.
  unfold Film.mentioned. apply bool_decide_false.
  intros (t & Ht & _). by apply not_elem_of_empty in Ht.
Qed.

Lemma mark_marked_copy refs f o :
  Film.mark refs f = Ok o → marked_copy refs f o.
Proof.
  unfold Film.mark, marked_copy.
  destruct (properties f) as [p|] eqn:Hp; simpl; [|done].
  case_bool_decide as Hrefs; simpl.
  - intros [= <-]. simpl. split; [done|]. exists p. eexists. split; [done|].
    split; [done|]. simpl. subst refs. by rewrite mentioned_empty.
  - destruct (name p) as [n|] eqn:Hn; simpl; [|done].
    intros [= <-]. simpl. split; [done|]. exists p. eexists. split; [done|].
    split; [done|]. simpl. unfold get_name. by rewrite Hp, Hn.
Qed.

(** X8. When create-film-islands.py returns, its output is, in input order,
    one copy of each relevant input feature and nothing else; a copy keeps
    geometry, name, area and region, is flagged [film_relevant], and its
    [mentioned_in_films] tells whether the feature's name normalises to the
    normal form of a film island. *)
Theorem film_output_is_marked_input features refs out :
  Film.relevant_islands features refs = Ok out →
  Forall2 (marked_copy refs)
          (filter (fun f => Film.is_relevant_island f refs Film.key_islands = true) features)
          out.
Proof.
  unfold Film.relevant_islands. intros Hout%mapM_Ok.
  eapply Forall2_impl; [exact Hout|]. intros f o. apply mark_marked_copy.
Qed.

End Unnamed.

(** ** Idempotence of the normalisers *)

Lemma clean_values_fixed :
  Forall (fun v => substitute Clean.name_mappings_literal v = v)
         Clean.name_mappings_literal.*2.
Proof. apply (bool_decide_unpack _). by vm_compute. Qed.

Lemma film_values_fixed :
  Forall (fun v => substitute film_alias_table v = v) film_alias_table.*2.
Proof. apply (bool_decide_unpack _). by vm_compute. Qed.

Section Idempotence.
Context `{PyStr}.

Lemma spec_normalize_idem (table : list (string * string)) (raw : string) :
  trims_once →
  Forall (fun v => strip (lower v) = v) table.*2 →
  Forall (fun v => substitute table v = v) table.*2 →
  spec_normalize table (spec_normalize table raw) = spec_normalize table raw.
Proof.
  intros Honce Hlow Hfix. unfold spec_normalize.
  destruct (dict_get (strip (lower raw)) table) as [v|] eqn:Hget.
  - assert (Hsub : substitute table (strip (lower raw)) = v)
      by (unfold substitute; by rewrite Hget).
    rewrite Hsub. apply dict_get_Some_elem in Hget.
    assert (Hv : v ∈ table.*2).
    { apply list_elem_of_fmap. by exists (strip (lower raw), v). }
    rewrite (proj1 (Forall_forall _ _) Hlow v Hv).
    by apply (proj1 (Forall_forall _ _) Hfix v Hv).
  - assert (Hsub : substitute table (strip (lower raw)) = strip (lower raw))
      by (unfold substitute; by rewrite Hget).
    rewrite Hsub, Honce. exact Hsub.
Qed.

(** X9. Both normalisers are idempotent: a normalised name is its own
    normal form (given that lowercasing and trimming twice changes nothing
    more, and that the canonical names of the tables are lowercase and
    trimmed, as they are written). *)
Theorem normalize_idempotent (raw : string) :
  trims_once →
  Forall (fun v => strip (lower v) = v) canonical_names →
  Clean.normalize_island_name (Clean.normalize_island_name raw) =
    Clean.normalize_island_name raw ∧
  Film.normalize_island_name (Film.normalize_island_name raw) =
    Film.normalize_island_name raw.
Proof.
  intros Honce Hlow. unfold canonical_names in Hlow.
  apply Forall_app in Hlow as [Hclean Hfilm]. split.
  - rewrite !clean_normalize_spec.
    apply spec_normalize_idem; [done | done | apply clean_values_fixed].
  - rewrite !film_normalize_spec.
    apply spec_normalize_idem; [done | done | apply film_values_fixed].
Qed.

End Idempotence.

(** ** The ASCII instance *)

Lemma ascii_strip_lower (s : string) : strip (lower s) = lower (strip s).
Proof. simpl. by rewrite lstrip_lower, rstrip_lower. Qed.

Lemma ascii_strip_idem (s : string) : strip (strip s) = strip s.
Proof.
  simpl. rewrite (lstrip_rstrip (lstrip s)) by apply lstrip_idem. apply rstrip_idem.
Qed.

Lemma ascii_keeps_text : keeps_text.
Proof.
  split; [reflexivity|]. intros s Hne.
  rewrite ascii_strip_lower, ascii_strip_idem. simpl in *.
  by destruct (rstrip (lstrip s)).
Qed.

Lemma ascii_trims_once : trims_once.
Proof. intros s. apply ascii_strip_lower_idem. Qed.

Lemma canonical_names_lowercase :
  Forall (fun v => strip (lower v) = v) canonical_names.
Proof. apply (bool_decide_unpack _). by vm_compute. Qed.

Lemma normalize_idempotent_example :
  Clean.normalize_island_name (Clean.normalize_island_name " Honolulu") =
    Clean.normalize_island_name " Honolulu" ∧
  Film.normalize_island_name (Film.normalize_island_name " Honolulu") =
    Film.normalize_island_name " Honolulu".
Proof.
  apply (normalize_idempotent " Honolulu");
    [exact ascii_trims_once | exact canonical_names_lowercase].
Defined.

Lemma example_islands_computed :
  Clean.get_film_islands (Parsed example_films) = Ok example_refs.
Proof. by vm_compute. Qed.

Lemma unnamed_feature_is_no_target_example :
  Clean.get_film_islands (Parsed example_films) = Ok example_refs ∧
  blank_name bare_feature ∧
  Clean.is_target_island bare_feature example_refs = false.
Proof.
  split; [exact example_islands_computed|]. split; [reflexivity|].
  apply (unnamed_feature_is_no_target (Parsed example_films) example_refs bare_feature).
  - exact ascii_keeps_text.
  - exact example_islands_computed.
  - reflexivity.
Defined.

Lemma clean_script_endings_example :
  match Clean.create_clean_film_islands
          (Parsed (bare_feature :: unplaced_feature :: example_features))
          (Parsed example_films) with
  | (Some out, ending) =>
      (Forall (fun o => is_Some (declared_region o)) out ∧
       ending = Ok (Some Clean.output_file)) ∨
      (Exists (fun o => declared_region o = None) out ∧
       ending = Raise (KeyError "region"))
  | (None, ending) => ending = Raise (KeyError "area")
  end.
Proof.
  apply (clean_script_endings (bare_feature :: unplaced_feature :: example_features)
           (Parsed example_films)).
  exact ascii_keeps_text.
Defined.

Lemma unplaced_feature_ends_late :
  (Clean.create_clean_film_islands (Parsed (unplaced_feature :: example_features))
     (Parsed example_films)).2 = Raise (KeyError "region").
Proof. by vm_compute. Qed.

Lemma blank_name_is_relevant_example :
  blank_name bare_feature ∧
  Film.is_relevant_island bare_feature example_refs Film.key_islands = true.
Proof.
  split; [reflexivity|].
  apply (blank_name_is_relevant bare_feature example_refs). reflexivity.
Defined.

Lemma film_filter_needs_properties_example :
  ∃ e, Film.relevant_islands (fiji :: bare_feature :: example_features) example_refs = Raise e.
Proof.
  apply (film_filter_needs_properties (fiji :: bare_feature :: example_features)
           example_refs bare_feature).
  - reflexivity.
  - right. left.
  - reflexivity.
Defined.

Lemma film_output_is_marked_input_example :
  Film.relevant_islands [fiji] ∅ = Ok [fiji_marked] ∧
  Forall2 (marked_copy ∅)
          (filter (fun f => Film.is_relevant_island f ∅ Film.key_islands = true) [fiji])
          [fiji_marked].
Proof.
  split; [by vm_compute|].
  apply (film_output_is_marked_input [fiji] ∅ [fiji_marked]). by vm_compute.
Defined.

(** ** The export of one table *)

Section ExportTable.
Import Airtable.
Context `{FileSystem}.

(** The loop passes the token of each page on to the next request. *)
Lemma fetch_loop_threaded (responses : list Response) :
  ∀ offset acc pc sent loop,
    fetch_loop (answers responses) offset acc pc sent = Some loop →
    ∃ extra, loop_sent loop = sent ++ extra ∧ threaded offset responses extra.
Proof.
  induction responses as [|r responses IH]; intros offset acc pc sent loop; simpl.
  - destruct (truthy offset); [done|]. intros [= <-]. exists []. simpl.
    split; [by rewrite app_nil_r|]. intros i req Hi. done.
  - destruct (truthy offset) eqn:Hoff.
    + case_bool_decide as Hst.
      * intros Hloop. apply IH in Hloop as (extra & Hsent & Hthr).
        exists ({| page_size := 100; offset_param := offset |} :: extra). split.
        { rewrite Hsent, <- app_assoc. done. }
        intros [|i] req Hi; simpl in Hi.
        { injection Hi as <-. done. }
        destruct (Hthr i req Hi) as (Hps & Htr & Hrest). split; [done|]. split; [done|].
        destruct i as [|j].
        -- exists r. done.
        -- destruct Hrest as (r' & Hr' & Hrest). exists r'. done.
      * intros [= <-]. exists [{| page_size := 100; offset_param := offset |}].
        split; [done|]. intros [|i] req Hi; simpl in Hi; [|done].
        injection Hi as <-. done.
    + intros [= <-]. exists []. split; [by rewrite app_nil_r|]. intros i req Hi. done.
Qed.

(** X10. The first request of [export_table_data] carries no token, and
    every later request carries the continuation token of the response just
    before it, which was a successful page with a non-empty token; all
    requests ask for pages of 100 records. *)
Theorem requests_follow_tokens
    (table_name : string) (files : gmap string Artifact)
    (responses : list Response) (run : Run) :
  export_table_data table_name files (answers responses) = Some run →
  requests run !! 0%nat = Some first_request ∧
  ∀ i request, requests run !! S i = Some request → follows_token responses i request.
Proof.
  destruct responses as [|first responses]; simpl; [done|].
  case_bool_decide as Hst.
  - intros [= <-]. simpl. split; [done|]. intros i req Hi. done.
  - destruct (fetch_loop _ _ _ _ _) as [loop|] eqn:Hloop; simpl; [|done].
    apply (fetch_loop_threaded responses) in Hloop as (extra & Hsent & Hthr).
    assert (Hreq : requests run = first_request :: extra →
              requests run !! 0%nat = Some first_request ∧
              ∀ i request, requests run !! S i = Some request →
                           follows_token (first :: responses) i request).
    { intros ->. split; [done|]. intros i req Hi. simpl in Hi.
      destruct (Hthr i req Hi) as (Hps & Htr & Hrest). split; [done|]. split; [done|].
      destruct i as [|j].
      - exists first. done.
      - destruct Hrest as (r' & Hr' & Hrest). exists r'. done. }
    destruct (loop_records loop); [destruct (save _ _ _)|];
      intros [= <-]; simpl in *; by apply Hreq.
Qed.

(** A call either leaves the directory alone and returns the empty list,
    or it has called [save] with the records it accumulated. *)
Lemma export_table_data_cases
    (table_name : string) (files : gmap string Artifact)
    (server : list Reply) (run : Run) :
  export_table_data table_name files server = Some run →
  (returned run = [] ∧ export_dir run = files) ∨
  ∃ all_records saved,
    save table_name all_records files = (export_dir run, saved) ∧
    returned run = match saved with
                   | Ok _ => all_records
                   | Raise _ => []
                   end.
Proof.
  intros Hrun. destruct server as [|[first|] server]; simpl in Hrun; [done| |].
  - case_bool_decide.
    + injection Hrun as <-. left. done.
    + destruct (fetch_loop _ _ _ _ _) as [loop|]; simpl in Hrun; [|done].
      destruct (loop_records loop) as [all_records|e].
      * destruct (save _ _ _) as [files' saved] eqn:Hsave.
        injection Hrun as <-. right. exists all_records, saved. done.
      * injection Hrun as <-. left. done.
  - injection Hrun as <-. left. done.
Qed.

Lemma export_postcondition
    (table_name : string) (files : gmap string Artifact)
    (server : list Reply) (run : Run) :
  export_table_data table_name files server = Some run →
  (returned run ≠ [] →
     export_dir run !! json_file (resolve table_name) = Some (JsonFile (returned run)) ∧
     export_dir run !! csv_file (resolve table_name)
       = Some (CsvFile (csv_row <$> returned run))) ∧
  (returned run = [] →
     export_dir run !! csv_file (resolve table_name)
       = files !! csv_file (resolve table_name)) ∧
  (∀ path, path ≠ json_file (resolve table_name) → path ≠ csv_file (resolve table_name) →
     export_dir run !! path = files !! path).
Proof.
  intros Hrun.
  apply export_table_data_cases in Hrun as [[-> ->]|(all_records & saved & Hsave & ->)].
  { done. }
  apply save_spec in Hsave as [Hother Hsaved].
  destruct saved as [[]|e].
  - destruct Hsaved as (_ & Hjson & Hcsv & Hcsv0). by auto.
  - destruct Hsaved as [_ Hcsv]. done.
Qed.

(** X11. The artifacts never disagree with the returned list: when
    [export_table_data] returns records, the JSON artifact holds exactly
    these records and the CSV artifact exactly their rows; when it returns
    the empty list, the CSV artifact is left as it was; and no file other
    than the two artifacts of the table is ever touched.  The artifacts are
    the files the directory keeps for the name of the table. *)
Theorem artifacts_match_returned
    (table_name : string) (files : gmap string Artifact)
    (server : list Reply) (run : Run) :
  export_table_data table_name files server = Some run →
  (returned run ≠ [] →
     export_dir run !! json_file (resolve table_name) = Some (JsonFile (returned run)) ∧
     export_dir run !! csv_file (resolve table_name)
       = Some (CsvFile (csv_row <$> returned run))) ∧
  (returned run = [] →
     export_dir run !! csv_file (resolve table_name)
       = files !! csv_file (resolve table_name)) ∧
  (∀ path, path ≠ json_file (resolve table_name) → path ≠ csv_file (resolve table_name) →
     export_dir run !! path = files !! path).
Proof. apply export_postcondition. Qed.

(** When [requests.get] raises, the loop is left through the exception. *)
Lemma fetch_loop_then_fails (pages : list Response) (later : list Reply) :
  Forall has_next pages →
  ∀ offset acc pc sent,
    truthy offset = true →
    ∃ loop,
      fetch_loop (answers pages ++ Fails :: later) offset acc pc sent = Some loop ∧
      loop_records loop = Raise ConnectionError ∧
      length (loop_sent loop) = (length sent + length pages + 1)%nat.
Proof.
  intros Hpages. induction Hpages as [|r pages [Hst Hoff] _ IH];
    intros offset acc pc sent Htruthy; simpl; rewrite Htruthy.
  - eexists. split; [reflexivity|]. simpl. split; [done|].
    rewrite length_app. simpl. lia.
  - rewrite bool_decide_true by done.
    destruct (IH (get_offset (json r)) (acc ++ get_records (json r)) (S pc)
                 (sent ++ [{| page_size := 100; offset_param := offset |}]) Hoff)
      as (loop & -> & Hrec & Hlen).
    exists loop. split; [done|]. split; [done|].
    rewrite Hlen, length_app. simpl. lia.
Qed.

(** X12. A transport failure is not treated like an error status: when
    [requests.get] raises on a follow-up request, the pages fetched so far
    are dropped, the call returns the empty list and writes nothing. *)
Theorem transport_failure_discards_pages
    (table_name : string) (files : gmap string Artifact)
    (first : Response) (pages : list Response) (later : list Reply) :
  has_next first →
  Forall has_next pages →
  ∃ run,
    export_table_data table_name files (answers (first :: pages) ++ Fails :: later)
      = Some run ∧
    returned run = [] ∧
    export_dir run = files ∧
    length (requests run) = (length pages + 2)%nat.
Proof.
  intros [Hst Hoff] Hpages. simpl.
  rewrite bool_decide_false by (intros Hne; apply Hne, Hst).
  destruct (fetch_loop_then_fails pages later Hpages
              (get_offset (json first)) (get_records (json first)) 1
              [first_request] Hoff) as (loop & -> & Hrec & Hlen).
  simpl. rewrite Hrec. eexists. split; [reflexivity|]. simpl.
  split; [done|]. split; [done|]. rewrite Hlen. simpl. lia.
Qed.

(** X13. A CSV row holds every field of its record unchanged, and an [id]
    column with the record's identifier, unless the record has a field
    called [id]: then that field's value stands in the column. *)
Theorem csv_row_columns (record : AirtableRecord) :
  (∀ k v, fields record !! k = Some v → csv_row record !! k = Some v) ∧
  (∀ k, k ≠ "id" → csv_row record !! k = fields record !! k) ∧
  csv_row record !! "id" = Some (default (id record) (fields record !! "id")).
Proof.
  unfold csv_row. split_and!.
  - intros k v Hk. by apply lookup_union_Some_l.
  - intros k Hk. rewrite lookup_union. rewrite lookup_singleton_ne by done.
    by destruct (fields record !! k).
  - rewrite lookup_union, lookup_singleton_eq.
    by destruct (fields record !! "id").
Qed.

End ExportTable.

Section ExportTableExamples.
Import Airtable.

Lemma requests_follow_tokens_example :
  export_table_data "Films" ∅ (answers two_pages) = Some two_pages_run ∧
  requests two_pages_run !! 0%nat = Some first_request ∧
  ∀ i request, requests two_pages_run !! S i = Some request →
               follows_token two_pages i request.
Proof.
  split; [exact two_pages_run_computed|].
  apply (requests_follow_tokens "Films" ∅ two_pages two_pages_run).
  exact two_pages_run_computed.
Defined.

Lemma artifacts_match_returned_example :
  export_table_data "Films" ∅ (answers two_pages) = Some two_pages_run ∧
  (returned two_pages_run ≠ [] →
     export_dir two_pages_run !! json_file (resolve "Films")
       = Some (JsonFile (returned two_pages_run)) ∧
     export_dir two_pages_run !! csv_file (resolve "Films") =
       Some (CsvFile (csv_row <$> returned two_pages_run))) ∧
  (returned two_pages_run = [] →
     export_dir two_pages_run !! csv_file (resolve "Films") =
       (∅ : gmap string Artifact) !! csv_file (resolve "Films")) ∧
  (∀ path, path ≠ json_file (resolve "Films") → path ≠ csv_file (resolve "Films") →
     export_dir two_pages_run !! path = (∅ : gmap string Artifact) !! path).
Proof.
  split; [exact two_pages_run_computed|].
  apply (artifacts_match_returned "Films" ∅ (answers two_pages) two_pages_run).
  exact two_pages_run_computed.
Defined.

Lemma transport_failure_discards_pages_example :
  ∃ run,
    export_table_data "Films" (∅ : gmap string Artifact)
      (answers [page [record_a] (Some "itr1"); page [record_b] (Some "itr2")]
       ++ Fails :: []) = Some run ∧
    returned run = [] ∧
    export_dir run = ∅ ∧
    length (requests run) = 3%nat.
Proof.
  apply (transport_failure_discards_pages "Films" ∅
           (page [record_a] (Some "itr1")) [page [record_b] (Some "itr2")] []).
  - split; reflexivity.
  - constructor; [split; reflexivity | constructor].
Defined.

Lemma csv_row_columns_example :
  csv_row record_a !! "id" = Some "recA" ∧ csv_row record_b !! "id" = Some "7".
Proof.
  split.
  - rewrite (proj2 (proj2 (csv_row_columns record_a))). reflexivity.
  - rewrite (proj2 (proj2 (csv_row_columns record_b))). reflexivity.
Defined.

End ExportTableExamples.

(** ** The field-type counts of the explorer *)

Section FieldTypes.
Import Explorer.

Lemma sum_dict_set (k : string) (n : nat) (d : list (string * nat)) :
  (sum_list (dict_set k n d).*2 + default 0 (dict_get k d) = sum_list d.*2 + n)%nat.
Proof.
  induction d as [|[k0 n0] d IH]; simpl; [lia|].
  case_bool_decide; simpl in *; unfold fmap in *; lia.
Qed.

Lemma dict_set_pos (k : string) (n : nat) (d : list (string * nat)) :
  (0 < n)%nat →
  Forall (fun n => 0 < n)%nat d.*2 →
  Forall (fun n => 0 < n)%nat (dict_set k n d).*2.
Proof.
  intros Hn. induction d as [|[k0 n0] d IH]; simpl; intros Hpos.
  - by repeat constructor.
  - apply Forall_cons in Hpos as [H0 Hpos].
    case_bool_decide; simpl; constructor; auto.
Qed.

Lemma count_type_get (t : string) (counts : list (string * nat)) (field : SchemaField) :
  default 0 (dict_get t (count_type counts field)) =
  (default 0 (dict_get t counts) + if bool_decide (type_of field = t) then 1 else 0)%nat.
Proof.
  unfold count_type. fold (type_of field). rewrite dict_get_set.
  case_decide as Ht; case_bool_decide; try congruence; subst; simpl; lia.
Qed.

Lemma count_types_fold (fields : list SchemaField) :
  ∀ counts t,
    NoDup counts.*1 →
    Forall (fun n => 0 < n)%nat counts.*2 →
    let result := fold_left count_type fields counts in
    NoDup result.*1 ∧
    Forall (fun n => 0 < n)%nat result.*2 ∧
    default 0 (dict_get t result) = (default 0 (dict_get t counts) + fields_of_type t fields)%nat ∧
    sum_list result.*2 = (sum_list counts.*2 + length fields)%nat.
Proof.
  induction fields as [|field fields IH]; intros counts t Hnd Hpos; simpl.
  - unfold fields_of_type. simpl. split_and!; [done | done | lia | lia].
  - assert (Hnd' : NoDup (count_type counts field).*1) by by apply dict_set_NoDup.
    assert (Hpos' : Forall (fun n => 0 < n)%nat (count_type counts field).*2).
    { unfold count_type. apply dict_set_pos; [lia | done]. }
    destruct (IH (count_type counts field) t Hnd' Hpos') as (H1 & H2 & H3 & H4).
    split_and!; [done | done | |].
    + rewrite H3, count_type_get. unfold fields_of_type.
      case_bool_decide as Ht.
      * rewrite filter_cons_True by done. simpl. lia.
      * rewrite filter_cons_False by done. lia.
    + rewrite H4. unfold count_type.
      pose proof (sum_dict_set (default "unknown" (field_type field))
                    (default 0 (dict_get (default "unknown" (field_type field)) counts) + 1)
                    counts). lia.
Qed.

End FieldTypes.

Section FieldTypeSummary.
Import Explorer.

Lemma dict_get_pos (t : string) (n : nat) (d : list (string * nat)) :
  Forall (fun n => 0 < n)%nat d.*2 → dict_get t d = Some n → (0 < n)%nat.
Proof.
  intros Hpos Hget. apply dict_get_Some_elem in Hget.
  rewrite Forall_forall in Hpos. apply Hpos.
  apply list_elem_of_fmap. by exists (t, n).
Qed.

(** X14. In the summary of a table, each type is listed once, with the
    number of the table's fields of that type (fields without a type count as
    "unknown"), types without a field are not listed, and the counts add up
    to [field_count]. *)
Theorem field_types_count_fields (table : SchemaTable) :
  let fields := default [] (table_fields table) in
  let summary := table_summary table in
  NoDup (field_types summary).*1 ∧
  sum_list (field_types summary).*2 = field_count summary ∧
  ∀ t, dict_get t (field_types summary) =
       if decide (fields_of_type t fields = 0)%nat then None
       else Some (fields_of_type t fields).
Proof.
  intros fields summary. unfold summary, table_summary. simpl. fold fields.
  unfold count_field_types.
  assert (Hall : ∀ t,
            NoDup (fold_left count_type fields []).*1 ∧
            Forall (fun n => 0 < n)%nat (fold_left count_type fields []).*2 ∧
            default 0 (dict_get t (fold_left count_type fields [])) =
              (0 + fields_of_type t fields)%nat ∧
            sum_list (fold_left count_type fields []).*2 = (0 + length fields)%nat).
  { intros t. apply (count_types_fold fields [] t); constructor. }
  destruct (Hall "") as (Hnd & Hpos & _ & Hsum).
  split; [done|]. split; [done|]. intros t.
  destruct (Hall t) as (_ & _ & Hget & _). simpl in Hget.
  destruct (dict_get t _) as [n|] eqn:Ht; simpl in Hget.
  - apply (dict_get_pos t n _ Hpos) in Ht. subst n. case_decide; [lia | done].
  - case_decide; [done | congruence].
Qed.

Lemma field_types_count_fields_example :
  field_types (table_summary example_table) =
    [("singleLineText", 2); ("unknown", 1); ("number", 1)]%nat ∧
  sum_list (field_types (table_summary example_table)).*2 =
    field_count (table_summary example_table).
Proof.
  split; [reflexivity|]. apply (field_types_count_fields example_table).
Defined.

End FieldTypeSummary.

(** ** The export of all bases *)

Section ExportAll.
Import Migration.
Context `{FileSystem}.
#[local] Arguments export_one : simpl never.
#[local] Arguments export_base : simpl never.
#[local] Arguments export_tables : simpl nomatch.

Lemma export_one_totals server base_id progress tables table progress' tables' :
  export_one server base_id (progress, tables) table = Some (progress', tables') →
  totals_ok (export_summary progress) tables →
  totals_ok (export_summary progress') tables' ∧
  es_bases (export_summary progress') = es_bases (export_summary progress).
Proof.
  unfold export_one.
  destruct (Airtable.export_table_data _ _ _) as [run|]; simpl; [|done].
  intros [= <- <-] [Ht Hr]. split; [|done].
  unfold totals_ok, tables_listed in *. simpl.
  rewrite fmap_app, length_app, sum_list_with_app. simpl. lia.
Qed.

Lemma export_tables_totals server base_id tables :
  ∀ progress pending progress' pending',
    export_tables server base_id tables (progress, pending) = Some (progress', pending') →
    totals_ok (export_summary progress) pending →
    totals_ok (export_summary progress') pending' ∧
    es_bases (export_summary progress') = es_bases (export_summary progress).
Proof.
  induction tables as [|table tables IH]; intros progress pending progress' pending'; simpl.
  - intros [= <- <-]. done.
  - destruct (export_one server base_id (progress, pending) table) as [[p1 t1]|] eqn:Hone;
      simpl; [|done].
    intros Hrest Hok.
    destruct (export_one_totals _ _ _ _ _ _ _ Hone Hok) as [Hok1 Hb1].
    destruct (IH _ _ _ _ Hrest Hok1) as [Hok2 Hb2]. split; [done | congruence].
Qed.

Lemma export_base_totals server progress base progress' :
  export_base server progress base = Some progress' →
  totals_ok (export_summary progress) [] →
  totals_ok (export_summary progress') [].
Proof.
  unfold export_base.
  destruct (export_base_schema _ _ _ _ _) as [[schema|] files]; [|by intros [= <-]].
  destruct (schema_truthy schema); [|by intros [= <-]].
  destruct (export_tables _ _ _ _) as [[p1 tables]|] eqn:Htables; simpl; [|done].
  intros [= <-] Hok.
  destruct (export_tables_totals _ _ _ _ _ _ _ Htables Hok) as [[Ht Hr] Hb].
  unfold totals_ok, tables_listed in *. simpl in *.
  rewrite Hb in *. rewrite fmap_app, concat_app, fmap_app, length_app, sum_list_with_app.
  simpl. rewrite app_nil_r. lia.
Qed.

Lemma export_bases_totals server bases :
  ∀ progress progress',
    export_bases server bases progress = Some progress' →
    totals_ok (export_summary progress) [] →
    totals_ok (export_summary progress') [].
Proof.
  induction bases as [|base bases IH]; intros progress progress'; simpl.
  - by intros [= <-].
  - destruct (export_base server progress base) as [p1|] eqn:Hbase; simpl; [|done].
    intros Hrest Hok. eapply IH; [done|]. by eapply export_base_totals.
Qed.

(** X15. When [export_all_data] returns True it has written an export
    summary whose totals are right: [total_tables] is the number of table
    summaries it lists and [total_records] is the sum of their record
    counts. *)
Theorem summary_totals_add_up (server : Server) (dir dir' : Disk) :
  export_all_data server dir = Some (true, dir') →
  ∃ summary,
    summary_file dir' = Some summary ∧
    total_tables summary = length (tables_listed summary) ∧
    total_records summary = sum_list (record_count <$> tables_listed summary).
Proof.
  unfold export_all_data. destruct (get_airtable_bases server) as [|b bases]; [done|].
  destruct (count_tables _ _ _) as [[calls n] files].
  destruct (export_bases _ _ _) as [progress|] eqn:Hbases; simpl; [|done].
  intros [= <-]. simpl. eexists. split; [done|].
  apply export_bases_totals in Hbases as [Ht Hr].
  - simpl in *. lia.
  - split; reflexivity.
Qed.

End ExportAll.

Section ExportAllListing.
Import Migration.
Context `{FileSystem}.
#[local] Arguments export_one : simpl never.
#[local] Arguments export_base : simpl never.
#[local] Arguments export_tables : simpl nomatch.

Lemma export_one_listing server base_id progress pending table progress' pending' :
  export_one server base_id (progress, pending) table = Some (progress', pending') →
  ∃ ts, pending' = pending ++ [ts] ∧ summarises table ts.
Proof.
  unfold export_one.
  destruct (Airtable.export_table_data _ _ _) as [run|]; simpl; [|done].
  intros [= <- <-]. eexists. split; [reflexivity|]. done.
Qed.

Lemma export_tables_listing server base_id tables :
  ∀ progress pending progress' pending',
    export_tables server base_id tables (progress, pending) = Some (progress', pending') →
    ∃ new, pending' = pending ++ new ∧ Forall2 summarises tables new.
Proof.
  induction tables as [|table tables IH]; intros progress pending progress' pending'; simpl.
  - intros [= <- <-]. exists []. split; [by rewrite app_nil_r | constructor].
  - destruct (export_one server base_id (progress, pending) table) as [[p1 t1]|] eqn:Hone;
      simpl; [|done].
    intros Hrest. apply export_one_listing in Hone as (ts & -> & Hts).
    apply IH in Hrest as (new & -> & Hnew).
    exists (ts :: new). split; [by rewrite <- app_assoc | by constructor].
Qed.

(** The export of the tables of a base leaves the list of bases and the
    number of schema calls as they are. *)
Lemma export_tables_bases server base_id tables :
  ∀ progress pending progress' pending',
    export_tables server base_id tables (progress, pending) = Some (progress', pending') →
    es_bases (export_summary progress') = es_bases (export_summary progress) ∧
    schema_calls progress' = schema_calls progress.
Proof.
  induction tables as [|table tables IH]; intros progress pending progress' pending'; simpl.
  - by intros [= <- <-].
  - destruct (export_one server base_id (progress, pending) table) as [[p1 t1]|] eqn:Hone;
      simpl; [|done].
    intros Hrest. apply IH in Hrest as [-> ->].
    unfold export_one in Hone.
    destruct (Airtable.export_table_data _ _ _) as [run|]; simpl in Hone; [|done].
    by injection Hone as <- <-.
Qed.

Lemma export_base_listing server progress base progress' :
  export_base server progress base = Some progress' →
  schema_calls progress' = S (schema_calls progress) ∧
  if exportableb server (schema_calls progress, base)
  then ∃ bs, es_bases (export_summary progress') = es_bases (export_summary progress) ++ [bs] ∧
             summarises_base server (schema_calls progress, base) bs
  else es_bases (export_summary progress') = es_bases (export_summary progress).
Proof.
  unfold export_base, export_base_schema, exportableb. simpl.
  destruct (meta_tables server (schema_calls progress) (base_id base))
    as [status schema|] eqn:Hmeta; [|by intros [= <-]].
  case_bool_decide as Hst; simpl; [|by intros [= <-]].
  destruct (can_write (schema_file (base_name base)));
    [|rewrite andb_false_r; by intros [= <-]].
  rewrite andb_true_r.
  destruct (schema_truthy schema); [|by intros [= <-]].
  destruct (export_tables _ _ _ _) as [[p1 tables]|] eqn:Htables; simpl; [|done].
  intros [= <-]. simpl.
  destruct (export_tables_bases _ _ _ _ _ _ _ Htables) as [Hb Hcalls]. simpl in Hb, Hcalls.
  apply export_tables_listing in Htables as (new & -> & Hnew).
  split; [done|].
  eexists. split; [by rewrite Hb|]. split; [done|]. split; [done|].
  exists schema. subst status. done.
Qed.

Lemma export_bases_listing server bases :
  ∀ progress progress',
    export_bases server bases progress = Some progress' →
    ∃ new, es_bases (export_summary progress') = es_bases (export_summary progress) ++ new ∧
           Forall2 (summarises_base server)
                   (filter (fun call => exportableb server call = true)
                           (schema_calls_from (schema_calls progress) bases))
                   new.
Proof.
  induction bases as [|base bases IH]; intros progress progress'; simpl.
  - intros [= <-]. exists []. split; [by rewrite app_nil_r | constructor].
  - destruct (export_base server progress base) as [p1|] eqn:Hbase; simpl; [|done].
    intros Hrest. apply export_base_listing in Hbase as [Hcalls Hbase].
    apply IH in Hrest as (new & Heq & Hnew). rewrite Hcalls in Hnew.
    unfold schema_calls_from. simpl.
    destruct (exportableb server (schema_calls progress, base)) eqn:Hexp.
    + destruct Hbase as (bs & Hbs & Hsum). exists (bs :: new). split.
      * by rewrite Heq, Hbs, <- app_assoc.
      * rewrite filter_cons_True by done. by constructor.
    + exists new. split; [by rewrite Heq, Hbase|].
      rewrite filter_cons_False by (by rewrite Hexp). done.
Qed.

(** The first pass calls [export_base_schema] once for each base. *)
Lemma count_tables_calls server bases files :
  (count_tables server bases files).1.1 = length bases.
Proof.
  unfold count_tables.
  assert (Hgen : ∀ calls total files0,
            (fold_left
               (fun '(calls, total_tables, files) base =>
                  let '(schema, files) :=
                    export_base_schema server calls files (base_id base) (base_name base) in
                  match schema with
                  | Some schema =>
                      if schema_truthy schema
                      then (S calls,
                            total_tables + length (default [] (schema_tables schema)), files)
                      else (S calls, total_tables, files)
                  | None => (S calls, total_tables, files)
                  end)
               bases (calls, total, files0)).1.1 = (calls + length bases)%nat).
  { induction bases as [|base bases IH]; intros calls total files0; simpl; [lia|].
    destruct (export_base_schema _ _ _ _ _) as [[schema|] files1].
    - destruct (schema_truthy schema); rewrite IH; lia.
    - rewrite IH. lia. }
  apply Hgen.
Qed.

(** X16. The export summary lists, in the order of the bases, every base
    for which the call of [export_base_schema] in the second pass got a
    non-empty schema with status 200 and could write the schema file, and no
    other; for each of them it lists every table of that schema once, in
    order, with its identifier, name and field names. *)
Theorem summary_lists_exported_bases (server : Server) (dir dir' : Disk) :
  export_all_data server dir = Some (true, dir') →
  ∃ summary,
    summary_file dir' = Some summary ∧
    Forall2 (summarises_base server)
            (filter (fun call => exportableb server call = true)
                    (second_pass (get_airtable_bases server)))
            (es_bases summary).
Proof.
  unfold export_all_data, second_pass.
  destruct (get_airtable_bases server) as [|b bases]; [done|].
  pose proof (count_tables_calls server (b :: bases) (schema_files dir)) as Hcalls.
  destruct (count_tables _ _ _) as [[calls n] files]. simpl in Hcalls. subst calls.
  destruct (export_bases _ _ _) as [progress|] eqn:Hbases; simpl; [|done].
  intros [= <-]. simpl. eexists. split; [done|].
  apply export_bases_listing in Hbases as (new & Heq & Hnew). simpl in Heq.
  by rewrite Heq.
Qed.

End ExportAllListing.

(** ** File names *)

Lemma string_length_app (a b : string) :
  String.length (a +:+ b) = (String.length a + String.length b)%nat.
Proof. induction a as [|c a IH]; simpl; [done|]. by rewrite IH. Qed.

Lemma string_app_inj_r (a b s : string) : a +:+ s = b +:+ s → a = b.
Proof.
  revert b. induction a as [|c a IH]; intros [|c' b] Heq.
  - done.
  - apply (f_equal String.length) in Heq.
    change (String c' b +:+ s) with (String c' (b +:+ s)) in Heq.
    change ("" +:+ s) with s in Heq. simpl in Heq.
    rewrite string_length_app in Heq. lia.
  - apply (f_equal String.length) in Heq.
    change (String c a +:+ s) with (String c (a +:+ s)) in Heq.
    change ("" +:+ s) with s in Heq. simpl in Heq.
    rewrite string_length_app in Heq. lia.
  - change (String c a +:+ s = String c' b +:+ s)
      with (String c (a +:+ s) = String c' (b +:+ s)) in Heq.
    injection Heq as -> Heq. f_equal. by apply IH.
Qed.

Lemma last_char_app (a s : string) :
  s ≠ "" → last_char (a +:+ s) = last_char s.
Proof.
  intros Hs. induction a as [|c a IH]; simpl; [done|].
  destruct (a +:+ s) eqn:Happ; [|done].
  destruct a; simpl in Happ; [done | discriminate].
Qed.

Lemma json_file_inj (a b : string) : Airtable.json_file a = Airtable.json_file b → a = b.
Proof. apply string_app_inj_r. Qed.

Lemma csv_file_inj (a b : string) : Airtable.csv_file a = Airtable.csv_file b → a = b.
Proof. apply string_app_inj_r. Qed.

Lemma json_csv_apart (a b : string) : Airtable.json_file a ≠ Airtable.csv_file b.
Proof.
  intros Heq. apply (f_equal last_char) in Heq.
  unfold Airtable.json_file, Airtable.csv_file in Heq.
  rewrite !last_char_app in Heq by done. discriminate.
Qed.

(** ** The artifacts after the export of all bases *)

Section ExportAllFiles.
Import Migration.
Context `{FileSystem}.
#[local] Arguments export_one : simpl never.
#[local] Arguments export_base : simpl never.
#[local] Arguments export_tables : simpl nomatch.

Lemma artifacts_hold_other (files files' : gmap string Airtable.Artifact)
    (table_name : string) (ts : TableSummary) :
  (∀ path, path ≠ Airtable.json_file (resolve table_name) →
           path ≠ Airtable.csv_file (resolve table_name) →
           files' !! path = files !! path) →
  stored_as ts ≠ resolve table_name →
  artifacts_hold files ts → artifacts_hold files' ts.
Proof.
  intros Hother Hne (records & Hlen & Hjson & Hcsv). exists records.
  split; [done|]. split.
  - rewrite Hother; [done | |].
    + intros Heq%json_file_inj. done.
    + apply json_csv_apart.
  - rewrite Hother; [done | |].
    + intros Heq. symmetry in Heq. by apply json_csv_apart in Heq.
    + intros Heq%csv_file_inj. done.
Qed.

Lemma export_one_files server base_id progress pending table progress' pending' :
  export_one server base_id (progress, pending) table = Some (progress', pending') →
  NoDup (stored_as <$> (tables_listed (export_summary progress') ++ pending')) →
  files_ok (table_files (disk progress)) (tables_listed (export_summary progress) ++ pending) →
  files_ok (table_files (disk progress')) (tables_listed (export_summary progress') ++ pending').
Proof.
  unfold export_one.
  destruct (Airtable.export_table_data _ _ _) as [run|] eqn:Hrun; simpl; [|done].
  intros [= <- <-]. simpl. unfold tables_listed. simpl.
  fold (tables_listed (export_summary progress)).
  set (listed := tables_listed (export_summary progress) ++ pending).
  rewrite app_assoc. fold listed. intros Hnd Hok.
  destruct (export_postcondition _ _ _ _ Hrun) as (Hsome & _ & Hother).
  rewrite fmap_app in Hnd. apply NoDup_app in Hnd as (_ & Hfresh & _).
  intros ts Hts Hpos. apply elem_of_app in Hts as [Hts| ->%list_elem_of_singleton].
  - apply (artifacts_hold_other _ _ (tbl_name table) ts Hother); [|by apply Hok].
    intros Heq. apply (Hfresh (stored_as ts)).
    + apply list_elem_of_fmap. by exists ts.
    + simpl. unfold stored_as at 2. simpl. rewrite Heq. left.
  - simpl in *. exists (Airtable.returned run). split; [done|]. apply Hsome.
    intros Hnil. rewrite Hnil in Hpos. simpl in Hpos. lia.
Qed.

Lemma export_tables_files server base_id tables :
  ∀ progress pending progress' pending',
    export_tables server base_id tables (progress, pending) = Some (progress', pending') →
    NoDup (stored_as <$> (tables_listed (export_summary progress') ++ pending')) →
    files_ok (table_files (disk progress))
             (tables_listed (export_summary progress) ++ pending) →
    files_ok (table_files (disk progress'))
             (tables_listed (export_summary progress') ++ pending').
Proof.
  induction tables as [|table tables IH]; intros progress pending progress' pending'; simpl.
  - by intros [= <- <-].
  - destruct (export_one server base_id (progress, pending) table) as [[p1 t1]|] eqn:Hone;
      simpl; [|done].
    intros Hrest Hnd Hok. apply (IH _ _ _ _ Hrest Hnd).
    apply (export_one_files _ _ _ _ _ _ _ Hone); [|done].
    destruct (export_tables_bases _ _ _ _ _ _ _ Hrest) as [Hb _].
    apply export_tables_listing in Hrest as (new & -> & _).
    unfold tables_listed in *. rewrite Hb in Hnd.
    rewrite app_assoc, fmap_app in Hnd. by apply NoDup_app in Hnd as (? & _).
Qed.

Lemma export_base_files server progress base progress' :
  export_base server progress base = Some progress' →
  NoDup (stored_as <$> tables_listed (export_summary progress')) →
  files_ok (table_files (disk progress)) (tables_listed (export_summary progress)) →
  files_ok (table_files (disk progress')) (tables_listed (export_summary progress')).
Proof.
  unfold export_base.
  destruct (export_base_schema _ _ _ _ _) as [[schema|] files];
    [|by intros [= <-] _ Hok].
  destruct (schema_truthy schema); [|by intros [= <-] _ Hok].
  destruct (export_tables _ _ _ _) as [[p1 tables]|] eqn:Htables; simpl; [|done].
  intros [= <-]. simpl. intros Hnd Hok.
  assert (Hlisted : tables_listed
            {| es_bases := es_bases (export_summary p1)
                           ++ [{| bs_base_id := base_id base; bs_base_name := base_name base;
                                  bs_tables := tables |}];
               total_records := total_records (export_summary p1);
               total_tables := total_tables (export_summary p1) |}
            = tables_listed (export_summary p1) ++ tables).
  { unfold tables_listed. simpl. rewrite fmap_app, concat_app. simpl.
    by rewrite app_nil_r. }
  rewrite Hlisted in *.
  apply (export_tables_files _ _ _ _ _ _ _ Htables Hnd). simpl.
  rewrite app_nil_r. exact Hok.
Qed.

Lemma export_bases_files server bases :
  ∀ progress progress',
    export_bases server bases progress = Some progress' →
    NoDup (stored_as <$> tables_listed (export_summary progress')) →
    files_ok (table_files (disk progress)) (tables_listed (export_summary progress)) →
    files_ok (table_files (disk progress')) (tables_listed (export_summary progress')).
Proof.
  induction bases as [|base bases IH]; intros progress progress'; simpl.
  - by intros [= <-].
  - destruct (export_base server progress base) as [p1|] eqn:Hbase; simpl; [|done].
    intros Hrest Hnd Hok. apply (IH _ _ Hrest Hnd).
    apply (export_base_files _ _ _ _ Hbase); [|done].
    apply export_bases_listing in Hrest as (new & Heq & _).
    unfold tables_listed in *. rewrite Heq, fmap_app, concat_app, fmap_app in Hnd.
    by apply NoDup_app in Hnd as (? & _).
Qed.

Lemma files_after_export (server : Server) (dir dir' : Disk) :
  export_all_data server dir = Some (true, dir') →
  ∃ summary,
    summary_file dir' = Some summary ∧
    (NoDup (stored_as <$> tables_listed summary) →
     ∀ ts, ts ∈ tables_listed summary → (0 < record_count ts)%nat →
           artifacts_hold (table_files dir') ts).
Proof.
  unfold export_all_data. destruct (get_airtable_bases server) as [|b bases]; [done|].
  destruct (count_tables _ _ _) as [[calls n] files].
  destruct (export_bases _ _ _) as [progress|] eqn:Hbases; simpl; [|done].
  intros [= <-]. simpl. eexists. split; [done|]. intros Hnd.
  apply (export_bases_files _ _ _ _ Hbases Hnd). simpl.
  intros ts Hts. by apply elem_of_nil in Hts.
Qed.

(** X17. The artifacts are named after the table alone, and the directory
    may keep two names as one file.  If no two tables listed in the export
    summary are kept under the same name, then after [export_all_data] every
    listed table with at least one record has its JSON artifact and its CSV
    artifact in the directory, holding as many records (and rows) as the
    summary's [record_count] says. *)
Theorem summary_counts_match_artifacts (server : Server) (dir dir' : Disk) :
  export_all_data server dir = Some (true, dir') →
  ∃ summary,
    summary_file dir' = Some summary ∧
    (NoDup (stored_as <$> tables_listed summary) →
     ∀ ts, ts ∈ tables_listed summary → (0 < record_count ts)%nat →
           artifacts_hold (table_files dir') ts).
Proof. apply files_after_export. Qed.

End ExportAllFiles.

(** ** From the export to the import instructions *)

Section ImportInstructions.
Import Migration Instructions.
Context `{FileSystem}.

Lemma tables_instructed_fmap (summary : ExportSummary) :
  tables_instructed (base_instructions <$> es_bases summary)
    = table_instructions <$> tables_listed summary.
Proof.
  unfold tables_instructed, tables_listed.
  induction (es_bases summary) as [|bs l IH]; simpl; [done|].
  rewrite fmap_app. f_equal. exact IH.
Qed.

(** X18. After an export that returned True, [import_to_baserow] finds the
    summary and writes instructions; if no two tables they list are kept
    under the same name in the directory, every CSV file they name for a
    table with at least one record is the CSV artifact of that table and is
    in the export directory, with as many rows as the instructions
    announce. *)
Theorem instructions_name_written_files (server : Server) (dir dir' : Disk) :
  export_all_data server dir = Some (true, dir') →
  ∃ instructions,
    import_to_baserow dir' = (true, Some instructions) ∧
    (NoDup ((fun ti => resolve (ti_table_name ti)) <$> tables_instructed instructions) →
     ∀ ti, ti ∈ tables_instructed instructions → (0 < ti_record_count ti)%nat →
           csv_ready (table_files dir') ti).
Proof.
  intros Hexport.
  destruct (files_after_export server dir dir' Hexport)
    as (summary & Hfile & Hfiles).
  unfold import_to_baserow. rewrite Hfile. eexists. split; [reflexivity|].
  rewrite tables_instructed_fmap. intros Hnd ti Hti Hpos.
  apply list_elem_of_fmap in Hti as (ts & -> & Hts). simpl in *.
  rewrite <- list_fmap_compose in Hnd.
  destruct (Hfiles Hnd ts Hts Hpos) as (records & Hlen & _ & Hcsv).
  exists records. done.
Qed.

End ImportInstructions.

(** ** The export of all bases on a concrete server *)

Lemma example_export_computed :
  Migration.export_all_data example_server empty_disk = Some (true, example_disk).
Proof. by vm_compute. Qed.

Lemma summary_totals_add_up_example :
  Migration.export_all_data example_server empty_disk = Some (true, example_disk) ∧
  ∃ summary,
    Migration.summary_file example_disk = Some summary ∧
    Migration.total_tables summary = length (tables_listed summary) ∧
    Migration.total_records summary
      = sum_list (Migration.record_count <$> tables_listed summary).
Proof.
  split; [exact example_export_computed|].
  apply (summary_totals_add_up example_server empty_disk example_disk).
  exact example_export_computed.
Defined.

Lemma summary_lists_exported_bases_example :
  Migration.export_all_data example_server empty_disk = Some (true, example_disk) ∧
  ∃ summary,
    Migration.summary_file example_disk = Some summary ∧
    Forall2 (summarises_base example_server)
            (filter (fun call => exportableb example_server call = true)
                    (second_pass (Migration.get_airtable_bases example_server)))
            (Migration.es_bases summary).
Proof.
  split; [exact example_export_computed|].
  apply (summary_lists_exported_bases example_server empty_disk example_disk).
  exact example_export_computed.
Defined.

Lemma summary_counts_match_artifacts_example :
  Migration.export_all_data example_server empty_disk = Some (true, example_disk) ∧
  ∃ summary,
    Migration.summary_file example_disk = Some summary ∧
    (NoDup (stored_as <$> tables_listed summary) →
     ∀ ts, ts ∈ tables_listed summary → (0 < Migration.record_count ts)%nat →
           artifacts_hold (Migration.table_files example_disk) ts).
Proof.
  split; [exact example_export_computed|].
  apply (summary_counts_match_artifacts example_server empty_disk example_disk).
  exact example_export_computed.
Defined.

Lemma instructions_name_written_files_example :
  Migration.export_all_data example_server empty_disk = Some (true, example_disk) ∧
  ∃ instructions,
    Instructions.import_to_baserow example_disk = (true, Some instructions) ∧
    (NoDup ((fun ti => resolve (Instructions.ti_table_name ti))
              <$> tables_instructed instructions) →
     ∀ ti, ti ∈ tables_instructed instructions → (0 < Instructions.ti_record_count ti)%nat →
           csv_ready (Migration.table_files example_disk) ti).
Proof.
  split; [exact example_export_computed|].
  apply (instructions_name_written_files example_server empty_disk example_disk).
  exact example_export_computed.
Defined.

(** Of the two bases of the example, the second pass exports the first one
    only: the name of the other cannot be opened. *)
Lemma example_second_pass :
  filter (fun call => exportableb example_server call = true)
         (second_pass (Migration.get_airtable_bases example_server))
  = [(2, pasifika)].
Proof. reflexivity. Qed.

(** The two tables listed in the example are kept under different names. *)
Lemma example_tables_apart :
  NoDup (stored_as <$> tables_listed example_summary).
Proof. apply (bool_decide_unpack _). by vm_compute. Qed.

(** Two tables kept under the same name share their artifacts: the export
    of the second overwrites what the first has written. *)
Lemma shared_files_computed :
  Migration.export_all_data shared_server empty_disk = Some (true, shared_disk).
Proof. by vm_compute. Qed.
